(** * fuzzy_patch: a shallow embedding of docs/designs/fuzzy_patch.py

    The development follows the Python source function by function:
    - [Py]: the string primitives of the Python runtime that the program
      calls (str.rstrip, str.strip, str.startswith, str.splitlines,
      file.readlines, str.join, re.split, re.match, int);
    - [find_flexible_match]: the flexible matcher (source lines 6-65);
    - [apply_fuzzy_patch]: the patch run (source lines 68-262), with the
      file system and the error channel made explicit.

    A Python [str] is a sequence of Unicode code points; it is modelled as a
    list of code points ([N]).  List indices are [nat]; the cumulative offset
    and the 1-based line numbers of hunk headers are signed and live in [Z]. *)

From Stdlib Require Import Strings.String Strings.Ascii.
From Stdlib Require Import List ZArith NArith Lia Bool Arith.
Import ListNotations.

(* ================================================================== *)
(** * Python string primitives *)
(* ================================================================== *)

Module Py.

Definition char := N.
Definition str := list char.

(** ASCII literals of the source, as code point sequences. *)
Definition lit (s : String.string) : str :=
  map N_of_ascii (list_ascii_of_string s).

Definition LF : char := 10%N.
Definition CR : char := 13%N.

Fixpoint str_eqb (a b : str) : bool :=
  match a, b with
  | [], [] => true
  | x :: a', y :: b' => N.eqb x y && str_eqb a' b'
  | _, _ => false
  end.

Fixpoint lines_eqb (a b : list str) : bool :=
  match a, b with
  | [], [] => true
  | x :: a', y :: b' => str_eqb x y && lines_eqb a' b'
  | _, _ => false
  end.

(** Truthiness of a Python string or list: non-empty. *)
Definition is_empty {A} (l : list A) : bool :=
  match l with [] => true | _ => false end.

(** [str.isspace] on one code point: the whitespace of [str.strip] and
    [str.rstrip] called without argument. *)
Definition is_space (c : char) : bool :=
  ((9 <=? c) && (c <=? 13) || (28 <=? c) && (c <=? 32)
   || (c =? 133) || (c =? 160) || (c =? 5760)
   || (8192 <=? c) && (c <=? 8202)
   || (c =? 8232) || (c =? 8233) || (c =? 8239) || (c =? 8287)
   || (c =? 12288))%N.

(** Line boundaries of [str.splitlines]. *)
Definition is_linebreak (c : char) : bool :=
  ((10 <=? c) && (c <=? 13) || (28 <=? c) && (c <=? 30)
   || (c =? 133) || (c =? 8232) || (c =? 8233))%N.

(** First code point of each run of ten decimal digits (category Nd), the
    characters that [\d] matches in a [str] pattern and that [int] reads. *)
Definition digit_zeros : list N :=
  [48; 1632; 1776; 1984; 2406; 2534; 2662; 2790; 2918; 3046; 3174; 3302;
   3430; 3558; 3664; 3792; 3872; 4160; 4240; 6112; 6160; 6470; 6608; 6784;
   6800; 6992; 7088; 7232; 7248; 42528; 43216; 43264; 43472; 43504; 43600;
   44016; 65296; 66720; 68912; 69734; 69872; 69942; 70096; 70384; 70736;
   70864; 71248; 71360; 71472; 71904; 72016; 72784; 73040; 73120; 92768;
   92864; 93008; 120782; 120792; 120802; 120812; 120822; 123200; 123632;
   125264; 130032]%N.

Definition digit_value (c : char) : option Z :=
  match find (fun z => (z <=? c) && (c <? z + 10))%N digit_zeros with
  | Some z => Some (Z.of_N (c - z))
  | None => None
  end.

Definition is_digit (c : char) : bool :=
  match digit_value c with Some _ => true | None => false end.

(** [s.rstrip(chars)]: drop the longest suffix made of characters in [p]. *)
Fixpoint rstrip_by (p : char -> bool) (s : str) : str :=
  match s with
  | [] => []
  | c :: s' =>
      match rstrip_by p s' with
      | [] => if p c then [] else [c]
      | t => c :: t
      end
  end.

Fixpoint lstrip_by (p : char -> bool) (s : str) : str :=
  match s with
  | [] => []
  | c :: s' => if p c then lstrip_by p s' else s
  end.

(** [s.rstrip()] and [s.strip()]. *)
Definition rstrip (s : str) : str := rstrip_by is_space s.
Definition strip (s : str) : str := lstrip_by is_space (rstrip_by is_space s).

(** [s.rstrip("\n")]. *)
Definition rstrip_newline (s : str) : str := rstrip_by (N.eqb LF) s.

(** [s.startswith(prefix)]. *)
Fixpoint startswith (prefix s : str) : bool :=
  match prefix, s with
  | [], _ => true
  | p :: prefix', c :: s' => N.eqb p c && startswith prefix' s'
  | _ :: _, [] => false
  end.

(** [sub in s]. *)
Fixpoint contains (sub s : str) : bool :=
  startswith sub s
  || match s with [] => false | _ :: s' => contains sub s' end.

(** [sep.join(parts)]. *)
Fixpoint join (sep : str) (parts : list str) : str :=
  match parts with
  | [] => []
  | [p] => p
  | p :: rest => p ++ sep ++ join sep rest
  end.

(** [f.readlines()] on the text of a file: the lines, each with its
    terminating newline (the last one has none when the text does not end
    with a newline). *)
Fixpoint readlines (s : str) : list str :=
  match s with
  | [] => []
  | c :: s' =>
      if N.eqb c LF then [c] :: readlines s'
      else match readlines s' with
           | [] => [[c]]
           | l :: ls => (c :: l) :: ls
           end
  end.

(** The segments between line boundaries, the last one included even when
    empty; a CR LF pair is one boundary. *)
Fixpoint split_breaks (after_cr : bool) (s : str) : list str :=
  match s with
  | [] => [[]]
  | c :: s' =>
      if after_cr && N.eqb c LF then split_breaks false s'
      else if is_linebreak c then [] :: split_breaks (N.eqb c CR) s'
      else match split_breaks false s' with
           | l :: ls => (c :: l) :: ls
           | [] => [[c]]
           end
  end.

(** [s.splitlines()]: no empty last line after a final boundary. *)
Definition splitlines (s : str) : list str :=
  let segs := split_breaks false s in
  if is_empty (last segs []) then removelast segs else segs.

(** [re.split(r"(?=^@@)", s, flags=re.MULTILINE)]: the text is cut before
    every line that begins with [@@] (an empty match splits, so a text that
    begins with [@@] yields an empty first part).  [bol] tells whether the
    current position is the beginning of a line; the result is the part
    under construction and the parts after it. *)
Fixpoint re_split_aux (bol : bool) (s : str) : str * list str :=
  match s with
  | [] => ([], [])
  | c :: s' =>
      let '(piece, rest) := re_split_aux (N.eqb c LF) s' in
      if bol && startswith (lit "@@") s
      then ([], (c :: piece) :: rest)
      else (c :: piece, rest)
  end.

Definition re_split_hunks (s : str) : list str :=
  let '(piece, rest) := re_split_aux true s in piece :: rest.

(** The longest prefix of decimal digits and what follows it ([\d+] when
    the prefix is non-empty; greedy, and nothing that follows [\d+] in the
    header pattern can start with a digit, so no backtracking arises). *)
Fixpoint span_digits (s : str) : str * str :=
  match s with
  | c :: s' =>
      if is_digit c
      then let '(ds, r) := span_digits s' in (c :: ds, r)
      else ([], s)
  | [] => ([], [])
  end.

(** [int(digits)] on a non-empty run of decimal digits.  Integers are
    unbounded.  The value is given for every run of digits: the [ValueError]
    that the interpreter raises on a run longer than its configured limit
    (4300 digits by default, never applied up to 640 digits) leaves the
    function without a return and is not modelled; a statement that relies
    on the conversion bounds the digits. *)
Definition int_of_digits (ds : str) : Z :=
  fold_left
    (fun acc c => 10 * acc + match digit_value c with Some v => v | None => 0 end)%Z
    ds 0%Z.

Definition strip_prefix (prefix s : str) : option str :=
  if startswith prefix s then Some (skipn (length prefix) s) else None.

(** The optional group [(?:,(\d+))?]: taken when a comma and at least one
    digit follow, skipped otherwise. *)
Definition opt_count (s : str) : str :=
  match s with
  | c :: s' =>
      if N.eqb c 44
      then match span_digits s' with
           | ([], _) => s
           | (_, r) => r
           end
      else s
  | [] => s
  end.

(** [re.match(r"@@ -(\d+)(?:,(\d+))? \+(\d+)(?:,(\d+))? @@", header)]:
    [Some] of [int(group(1))] when the header matches (at its beginning;
    what follows the closing [@@] is free), [None] when it does not. *)
Definition match_header (header : str) : option Z :=
  match strip_prefix (lit "@@ -") header with
  | None => None
  | Some s1 =>
      match span_digits s1 with
      | ([], _) => None
      | (old_start, s2) =>
          match strip_prefix (lit " +") (opt_count s2) with
          | None => None
          | Some s3 =>
              match span_digits s3 with
              | ([], _) => None
              | (_, s4) =>
                  if startswith (lit " @@") (opt_count s4)
                  then Some (int_of_digits old_start)
                  else None
              end
          end
      end
  end.

(** [str(n)] for a natural number, as used by the f-strings. *)
Fixpoint decimal_aux (fuel : nat) (n : N) (acc : str) : str :=
  match fuel with
  | O => acc
  | S fuel' =>
      let acc' := (48 + n mod 10)%N :: acc in
      if (n <? 10)%N then acc' else decimal_aux fuel' (n / 10)%N acc'
  end.

Definition decimal (n : nat) : str :=
  decimal_aux (S n) (N.of_nat n) [].

(** Python slices [l[i:j]], [l[:i]] and [l[i:]] for indices in range. *)
Definition slice {A} (l : list A) (i j : nat) : list A :=
  firstn (j - i) (skipn i l).

End Py.

Import Py.

(* ================================================================== *)
(** * The flexible matcher (find_flexible_match) *)
(* ================================================================== *)

Local Open Scope Z_scope.

(** The result triple [(found, start_index, end_index + 1)]. *)
Definition match_result : Type := bool * Z * Z.

Definition not_found : match_result := (false, -1, -1).

Definition found_of (r : match_result) : bool := fst (fst r).
Definition start_of (r : match_result) : Z := snd (fst r).
Definition end_of (r : match_result) : Z := snd r.

(** [range(start, stop)] for a start that is a valid (non-negative) index;
    the stop may be negative, the range is then empty. *)
Definition range (start : nat) (stop : Z) : list nat :=
  seq start (Z.to_nat (stop - Z.of_nat start)).

(** Line 21: the non-blank lines of the hunk, in order. *)
Definition core_pattern (hunk_lines : list str) : list str :=
  filter (fun line => negb (is_empty line)) hunk_lines.

(** Lines 24-30: the hunk has only blank lines; exact match of the block
    against a window of the same length. *)
Fixpoint exact_match_loop (target_lines hunk_lines : list str)
    (indices : list nat) : match_result :=
  match indices with
  | [] => not_found
  | i :: indices' =>
      let target_slice_stripped :=
        map rstrip (slice target_lines i (i + length hunk_lines)) in
      if lines_eqb target_slice_stripped hunk_lines
      then (true, Z.of_nat i, Z.of_nat (i + length hunk_lines))
      else exact_match_loop target_lines hunk_lines indices'
  end.

(** Lines 37-41: advance [target_ptr] to the first line whose stripped text
    is the first entry of the pattern; [rest] is [target_lines[target_ptr:]],
    so the pointer that comes back is [len(target_lines)] when there is no
    such line. *)
Fixpoint scan_first (first : str) (rest : list str) (target_ptr : nat) : nat :=
  match rest with
  | [] => target_ptr
  | line :: rest' =>
      if negb (str_eqb (rstrip line) first)
      then scan_first first rest' (S target_ptr)
      else target_ptr
  end.

(** Lines 51-59: the walk over the lines after the start of the match;
    [rest] is [target_lines[target_ptr:]].  The pair that comes back is
    [(pattern_ptr, target_ptr)] when the loop is left, by its condition or
    by [break]. *)
Fixpoint walk (core : list str) (rest : list str)
    (pattern_ptr target_ptr : nat) : nat * nat :=
  match rest with
  | [] => (pattern_ptr, target_ptr)
  | line :: rest' =>
      if (pattern_ptr <? length core)%nat then
        let target_line_stripped := rstrip line in
        if str_eqb target_line_stripped (nth pattern_ptr core [])
        then walk core rest' (S pattern_ptr) (S target_ptr)
        else if negb (str_eqb target_line_stripped [])
        then (pattern_ptr, target_ptr)
        else walk core rest' pattern_ptr (S target_ptr)
      else (pattern_ptr, target_ptr)
  end.

(** Lines 32-65: one iteration per start index [i]. *)
Fixpoint flexible_match_loop (target_lines core : list str)
    (indices : list nat) : match_result :=
  match indices with
  | [] => not_found
  | i :: indices' =>
      let target_ptr := scan_first (nth 0 core []) (skipn i target_lines) i in
      if (length target_lines <=? target_ptr)%nat then not_found
      else
        let match_start_idx := target_ptr in
        let '(pattern_ptr, target_ptr) :=
          walk core (skipn (S target_ptr) target_lines) 1 (S target_ptr) in
        if (pattern_ptr =? length core)%nat
        then (true, Z.of_nat match_start_idx, Z.of_nat target_ptr)
        else flexible_match_loop target_lines core indices'
  end.

Definition find_flexible_match (target_lines hunk_lines : list str)
    (search_start_idx : nat) : match_result :=
  let core := core_pattern hunk_lines in
  if is_empty core then
    exact_match_loop target_lines hunk_lines
      (range search_start_idx
         (Z.of_nat (length target_lines) - Z.of_nat (length hunk_lines) + 1))
  else
    flexible_match_loop target_lines core
      (range search_start_idx (Z.of_nat (length target_lines))).

(* ================================================================== *)
(** * The patch run (apply_fuzzy_patch) *)
(* ================================================================== *)

(** ** The file system and the error channel *)

(** What [open(path, "r")] followed by [readlines] meets at a path: no file
    ([FileNotFoundError]), another [IOError] with its message, or the text of
    the file, decoded and with its line ends translated to the newline (a
    file that does not decode raises out of the function, which is not
    modelled). *)
Inductive file_state : Type :=
| NotFound
| Unreadable (e : str)
| Content (text : str).

(** The environment of one run: the files, and what the final
    [open(target, "w")] and [write] will meet: success, or an [IOError]
    with its message that leaves some state at the target path. *)
Record world : Type := {
  fs : str -> file_state;
  write_error : option (str * file_state)
}.

(** The file operations of a run: reading the diff, reading the target,
    and the [open(target, "w")] with the text handed to [write]. *)
Inductive event : Type :=
| ReadDiff
| ReadTarget
| WriteTarget (text : str).

(** The error kinds, one per [return False] of the source. *)
Inductive error : Type :=
| DiffFileNotFound
| DiffFileIOError (e : str)
| TargetFileNotFound
| TargetFileIOError (e : str)
| MalformedHunkHeader (hunk_header : str)
| HunkMatchFailure (hunk_header : str) (expected : list str)
| TargetFileWriteFailure (e : str).

(** The outcome of a run: the returned boolean, the error behind a [False],
    the lines printed on [sys.stderr], the file operations in order, and the
    files afterwards. *)
Record outcome : Type := {
  returned : bool;
  failure : option error;
  stderr : list str;
  trace : list event;
  fs_after : str -> file_state
}.

Definition quote : str := lit "'".

(** Lines 244-250. *)
Definition expected_line_message (idx : nat) (line_to_find_stripped : str) : str :=
  lit "  Expected (stripped) line " ++ decimal (idx + 1) ++ lit ": '"
  ++ line_to_find_stripped ++ quote.

(** The [print(..., file=sys.stderr)] calls that precede each
    [return False]. *)
Definition diagnostics (target_file_path diff_file_path : str) (e : error)
  : list str :=
  match e with
  | DiffFileNotFound =>
      [lit "Error: Diff file '" ++ diff_file_path ++ lit "' not found."]
  | DiffFileIOError e =>
      [lit "Error reading diff file '" ++ diff_file_path ++ lit "': " ++ e]
  | TargetFileNotFound =>
      [lit "Error: Target file '" ++ target_file_path
       ++ lit "' not found, and diff does not indicate it's a new file."]
  | TargetFileIOError e =>
      [lit "Error reading target file '" ++ target_file_path ++ lit "': " ++ e]
  | MalformedHunkHeader hunk_header =>
      [lit "Error: Could not parse hunk header: " ++ hunk_header]
  | HunkMatchFailure hunk_header expected =>
      [lit "Error: Could not apply hunk starting with: " ++ hunk_header;
       lit "Failed to find this (ignoring blank lines) block in the target file:"]
      ++ map (fun p => expected_line_message (fst p) (snd p))
           (combine (seq 0 (length expected)) expected)
  | TargetFileWriteFailure e =>
      [lit "Error writing patched file '" ++ target_file_path ++ lit "': " ++ e]
  end.

(** ** The hunk interpreter (lines 134-176) *)

(** One iteration of the loop over the body lines (lines 156-176);
    [n_body] is [len(hunk_body_lines_raw)], the pair is
    [(current_hunk_original_block_stripped, current_hunk_new_block_raw)]. *)
Definition classify_line (n_body : nat) (blocks : list str * list str)
    (line_in_hunk_body : str) : list str * list str :=
  let '(original_block_stripped, new_block_raw) := blocks in
  if is_empty line_in_hunk_body && (n_body =? 1)%nat
     && negb (startswith (lit "-") line_in_hunk_body
              || startswith (lit "+") line_in_hunk_body
              || startswith (lit " ") line_in_hunk_body)
  then blocks
  else
    match line_in_hunk_body with
    | [] => blocks
    | op :: content_raw =>
        let content_stripped := rstrip content_raw in
        if N.eqb op 32 then
          (original_block_stripped ++ [content_stripped],
           new_block_raw ++ [content_raw])
        else if N.eqb op 45 then
          (original_block_stripped ++ [content_stripped], new_block_raw)
        else if N.eqb op 43 then
          (original_block_stripped, new_block_raw ++ [content_raw])
        else blocks
    end.

Definition interpret_body (hunk_body_lines_raw : list str)
  : list str * list str :=
  fold_left (classify_line (length hunk_body_lines_raw))
    hunk_body_lines_raw ([], []).

(** What lines 134-176 make of one part of the diff: nothing (line 138,
    [continue]), a header that does not parse (line 149, [return False]), or
    the start line of the header with the expected original block and the
    new block. *)
Inductive interpreted : Type :=
| NotAHunk
| BadHeader (hunk_header : str)
| Hunk (hunk_header : str) (old_start_line_1idx : Z)
       (original_block_stripped new_block_raw : list str).

Definition interpret_hunk (hunk_text : str) : interpreted :=
  let hunk_text_stripped_overall := strip hunk_text in
  if is_empty hunk_text_stripped_overall
     || negb (startswith (lit "@@") hunk_text_stripped_overall)
  then NotAHunk
  else
    let lines_in_hunk_with_header := splitlines hunk_text_stripped_overall in
    let hunk_header := nth 0 lines_in_hunk_with_header [] in
    let hunk_body_lines_raw := tl lines_in_hunk_with_header in
    match match_header hunk_header with
    | None => BadHeader hunk_header
    | Some old_start_line_1idx =>
        let '(original_block_stripped, new_block_raw) :=
          interpret_body hunk_body_lines_raw in
        Hunk hunk_header old_start_line_1idx
          original_block_stripped new_block_raw
    end.

(** ** The sequential applier (lines 131-251) *)

(** What one iteration of the loop over the hunks does: go on with the new
    lines and offset, or leave the function with [return False]. *)
Inductive hunk_step : Type :=
| Continue (patched_lines_raw : list str) (current_file_offset : Z)
| ReturnFalse (e : error).

Definition search_window_radius : Z := 40.

(** Lines 182-189. *)
Definition insertion_point (old_start_line_1idx current_file_offset : Z)
    (patched_lines_raw : list str) : Z :=
  let insertion_point_0idx :=
    if old_start_line_1idx =? 0 then current_file_offset
    else (old_start_line_1idx - 1) + current_file_offset in
  Z.max 0 (Z.min insertion_point_0idx (Z.of_nat (length patched_lines_raw))).

(** Lines 203-206. *)
Definition window_search_start (old_start_line_1idx current_file_offset : Z) : Z :=
  let hint_search_start_0idx := (old_start_line_1idx - 1) + current_file_offset in
  Z.max 0 (hint_search_start_0idx - search_window_radius).

(** Lines 209-223: the search near the hint, then over the whole file. *)
Definition locate (patched_lines_raw original_block_stripped : list str)
    (old_start_line_1idx current_file_offset : Z) : match_result :=
  let r :=
    find_flexible_match patched_lines_raw original_block_stripped
      (Z.to_nat (window_search_start old_start_line_1idx current_file_offset)) in
  if negb (found_of r)
  then find_flexible_match patched_lines_raw original_block_stripped 0
  else r.

(** Lines 178-251, once the header and the body are interpreted. *)
Definition apply_blocks (patched_lines_raw : list str) (current_file_offset : Z)
    (hunk_header : str) (old_start_line_1idx : Z)
    (original_block_stripped new_block_raw : list str) : hunk_step :=
  if is_empty original_block_stripped then
    if is_empty new_block_raw then
      Continue patched_lines_raw current_file_offset
    else
      let insertion_point_0idx :=
        Z.to_nat (insertion_point old_start_line_1idx current_file_offset
                    patched_lines_raw) in
      Continue
        (firstn insertion_point_0idx patched_lines_raw
         ++ new_block_raw
         ++ skipn insertion_point_0idx patched_lines_raw)
        (current_file_offset + Z.of_nat (length new_block_raw))
  else
    let r := locate patched_lines_raw original_block_stripped
               old_start_line_1idx current_file_offset in
    if found_of r then
      let replaced_block_len := end_of r - start_of r in
      Continue
        (firstn (Z.to_nat (start_of r)) patched_lines_raw
         ++ new_block_raw
         ++ skipn (Z.to_nat (end_of r)) patched_lines_raw)
        (current_file_offset
         + (Z.of_nat (length new_block_raw) - replaced_block_len))
    else
      ReturnFalse (HunkMatchFailure hunk_header original_block_stripped).

(** Lines 134-251: the body of the loop over [diff_parts]. *)
Definition apply_hunk (patched_lines_raw : list str) (current_file_offset : Z)
    (hunk_text : str) : hunk_step :=
  match interpret_hunk hunk_text with
  | NotAHunk => Continue patched_lines_raw current_file_offset
  | BadHeader hunk_header => ReturnFalse (MalformedHunkHeader hunk_header)
  | Hunk hunk_header old_start_line_1idx original_block_stripped new_block_raw =>
      apply_blocks patched_lines_raw current_file_offset hunk_header
        old_start_line_1idx original_block_stripped new_block_raw
  end.

(** Lines 133-251: the loop over the hunks, left at the first
    [return False]. *)
Fixpoint run_hunks (diff_parts : list str) (patched_lines_raw : list str)
    (current_file_offset : Z) : hunk_step :=
  match diff_parts with
  | [] => Continue patched_lines_raw current_file_offset
  | hunk_text :: diff_parts' =>
      match apply_hunk patched_lines_raw current_file_offset hunk_text with
      | Continue patched_lines_raw' current_file_offset' =>
          run_hunks diff_parts' patched_lines_raw' current_file_offset'
      | ReturnFalse e => ReturnFalse e
      end
  end.

(** ** The diff segmenter (lines 88-129) *)

(** Lines 91-95. *)
Definition is_new_file_diff (diff_lines_raw : list str) : bool :=
  let first_line := nth 0 diff_lines_raw [] in
  startswith (lit "---") first_line
  && (contains (lit "/dev/null") first_line
      || contains (lit "a/dev/null") first_line).

(** Lines 118-126. *)
Definition segment (diff_content_for_split : str) : list str :=
  let diff_parts := re_split_hunks diff_content_for_split in
  if negb (is_empty diff_parts)
     && negb (is_empty (nth 0 diff_parts []))
     && negb (startswith (lit "@@") (nth 0 diff_parts []))
     && negb (is_empty (strip (nth 0 diff_parts [])))
  then tl diff_parts
  else diff_parts.

(** Line 128. *)
Definition no_hunk_parts (diff_parts : list str) : bool :=
  is_empty diff_parts
  || ((length diff_parts =? 1)%nat && is_empty (strip (nth 0 diff_parts []))).

(** ** The run (lines 68-262) *)

Definition write_file (path : str) (st : file_state) (files : str -> file_state)
  : str -> file_state :=
  fun p => if str_eqb p path then st else files p.

(** Lines 255-257: what is written to the target. *)
Definition render (patched_lines_raw : list str) : str :=
  if is_empty patched_lines_raw then []
  else join [LF] patched_lines_raw ++ [LF].

Section Run.

Variables target_file_path diff_file_path : str.
Variable w : world.

Definition succeed (tr : list event) (files : str -> file_state) : outcome :=
  {| returned := true; failure := None; stderr := [];
     trace := tr; fs_after := files |}.

Definition fail (tr : list event) (files : str -> file_state) (e : error)
  : outcome :=
  {| returned := false; failure := Some e;
     stderr := diagnostics target_file_path diff_file_path e;
     trace := tr; fs_after := files |}.

(** Lines 116-262, once the diff and the target lines are in memory;
    [tr] holds the reads done so far. *)
Definition patch_and_write (tr : list event) (diff_content_for_split : str)
    (target_lines_raw : list str) : outcome :=
  let diff_parts := segment diff_content_for_split in
  if no_hunk_parts diff_parts then succeed tr (fs w)
  else
    match run_hunks diff_parts target_lines_raw 0 with
    | ReturnFalse e => fail tr (fs w) e
    | Continue patched_lines_raw _ =>
        let tr' := tr ++ [WriteTarget (render patched_lines_raw)] in
        match write_error w with
        | None =>
            succeed tr'
              (write_file target_file_path
                 (Content (render patched_lines_raw)) (fs w))
        | Some (e, left_on_disk) =>
            fail tr' (write_file target_file_path left_on_disk (fs w))
              (TargetFileWriteFailure e)
        end
    end.

Definition apply_fuzzy_patch : outcome :=
  match fs w diff_file_path with
  | NotFound => fail [ReadDiff] (fs w) DiffFileNotFound
  | Unreadable e => fail [ReadDiff] (fs w) (DiffFileIOError e)
  | Content diff_text =>
      let diff_lines_with_newlines := readlines diff_text in
      if is_empty diff_lines_with_newlines
      then succeed [ReadDiff] (fs w)
      else
        let diff_lines_raw := map rstrip_newline diff_lines_with_newlines in
        let diff_content_for_split := join [LF] diff_lines_raw in
        if is_new_file_diff diff_lines_raw then
          patch_and_write [ReadDiff] diff_content_for_split []
        else
          let tr := [ReadDiff; ReadTarget] in
          match fs w target_file_path with
          | NotFound => fail tr (fs w) TargetFileNotFound
          | Unreadable e => fail tr (fs w) (TargetFileIOError e)
          | Content target_text =>
              patch_and_write tr diff_content_for_split
                (map rstrip_newline (readlines target_text))
          end
  end.

End Run.

(* ================================================================== *)
(** * The command line (lines 265-276) *)
(* ================================================================== *)

(** What a process leaves: its exit status, the lines on [sys.stderr], the
    file operations and the files. *)
Record process : Type := {
  exit_status : Z;
  process_stderr : list str;
  process_trace : list event;
  process_fs : str -> file_state
}.

Definition usage : str :=
  lit "Usage: python fuzzy_patch.py <target_file> <diff_file>".

(** [argv] is [sys.argv], the name of the script included. *)
Definition main (argv : list str) (w : world) : process :=
  if negb (length argv =? 3)%nat then
    {| exit_status := 1; process_stderr := [usage];
       process_trace := []; process_fs := fs w |}
  else
    let target_file_arg := nth 1 argv [] in
    let diff_file_arg := nth 2 argv [] in
    let o := apply_fuzzy_patch target_file_arg diff_file_arg w in
    {| exit_status := if returned o then 0 else 1;
       process_stderr := stderr o;
       process_trace := trace o;
       process_fs := fs_after o |}.

(* ================================================================== *)
(** * Vocabulary of the properties *)
(* ================================================================== *)

Local Open Scope nat_scope.

(** ** The matcher *)

(** The stripped text of the non-blank lines of a block, in order: what the
    matcher compares.  On the hunk side it is the non-blank entries of the
    expected block; on the file side, the non-blank lines of a window. *)
Definition nonblank_trimmed (ls : list str) : list str :=
  filter (fun l => negb (is_empty l)) (map rstrip ls).

(** An entry of an expected block is whitespace-trimmed: the interpreter
    stores [content_raw.rstrip()]. *)
Definition trimmed (l : str) : Prop := rstrip l = l.

(** The non-blank entries of the block occur in order in the file lines at
    or after [start], separated only by blank lines: some window [s, e) of
    the file, not before [start], has exactly these non-blank lines. *)
Definition occurs_from (target_lines hunk_lines : list str) (start : nat) : Prop :=
  exists s e,
    start <= s /\ s <= e /\ e <= length target_lines
    /\ nonblank_trimmed (slice target_lines s e) = nonblank_trimmed hunk_lines.

(** One iteration of the loop over the start indices: [Some] of the
    returned triple, or [None] when the loop goes on. *)
Definition attempt (target_lines core : list str) (i : nat)
  : option match_result :=
  let target_ptr := scan_first (nth 0 core []) (skipn i target_lines) i in
  if length target_lines <=? target_ptr then Some not_found
  else
    let '(pattern_ptr, target_ptr') :=
      walk core (skipn (S target_ptr) target_lines) 1 (S target_ptr) in
    if pattern_ptr =? length core
    then Some (true, Z.of_nat target_ptr, Z.of_nat target_ptr')
    else None.

(** The line the first scan of a call stops on, and the walk from there. *)
Definition first_occurrence (target_lines hunk_lines : list str) (start : nat)
  : nat :=
  scan_first (nth 0 (core_pattern hunk_lines) []) (skipn start target_lines)
    start.

Definition first_walk (target_lines hunk_lines : list str) (start : nat)
  : nat * nat :=
  let p := first_occurrence target_lines hunk_lines start in
  walk (core_pattern hunk_lines) (skipn (S p) target_lines) 1 (S p).

(** The first walk of a call is left by [break]: the first pattern line was
    found, and the walk stopped before the end of the pattern and before the
    end of the file. *)
Definition first_walk_breaks (target_lines hunk_lines : list str) (start : nat)
  : bool :=
  (first_occurrence target_lines hunk_lines start <? length target_lines)
  && (fst (first_walk target_lines hunk_lines start)
        <? length (core_pattern hunk_lines))
  && (snd (first_walk target_lines hunk_lines start) <? length target_lines).

Local Open Scope Z_scope.

(** ** The applier and the run *)

(** The lines a hunk puts into the file and the lines it takes out of it,
    when it is applied to the given lines with the given offset: the length
    of the new block, and the length of the matched region (none for a pure
    insertion). *)
Definition spliced (patched_lines_raw : list str) (current_file_offset : Z)
    (hunk_text : str) : Z * Z :=
  match interpret_hunk hunk_text with
  | Hunk _ old_start_line_1idx original_block_stripped new_block_raw =>
      if is_empty original_block_stripped
      then (Z.of_nat (length new_block_raw), 0)
      else
        let r := locate patched_lines_raw original_block_stripped
                   old_start_line_1idx current_file_offset in
        if found_of r
        then (Z.of_nat (length new_block_raw), end_of r - start_of r)
        else (0, 0)
  | _ => (0, 0)
  end.

(** The totals of [spliced] over the hunks that a run applies. *)
Fixpoint run_spliced (diff_parts : list str) (patched_lines_raw : list str)
    (current_file_offset : Z) : Z * Z :=
  match diff_parts with
  | [] => (0, 0)
  | hunk_text :: diff_parts' =>
      match apply_hunk patched_lines_raw current_file_offset hunk_text with
      | Continue patched_lines_raw' current_file_offset' =>
          let '(added, removed) :=
            spliced patched_lines_raw current_file_offset hunk_text in
          let '(added', removed') :=
            run_spliced diff_parts' patched_lines_raw' current_file_offset' in
          (added + added', removed + removed')
      | ReturnFalse _ => (0, 0)
      end
  end.

(** The texts written to the target during a run. *)
Definition writes (tr : list event) : list str :=
  flat_map (fun ev => match ev with WriteTarget text => [text] | _ => [] end) tr.

(** The lines of a text as the program reads them (line 88 and line 103). *)
Definition lines_of (text : str) : list str :=
  map rstrip_newline (readlines text).

(** Some line of the text begins with the hunk marker; [bol] tells whether
    the text starts at the beginning of a line. *)
Fixpoint has_hunk_marker (bol : bool) (s : str) : bool :=
  match s with
  | [] => false
  | c :: s' =>
      (bol && startswith (lit "@@") s) || has_hunk_marker (N.eqb c LF) s'
  end.

(** A line that [readlines] returns: characters of the text other than the
    newline, with or without one final newline. *)
Definition line_shape (text l : str) : Prop :=
  exists body,
    ~ In LF body /\ (forall c, In c body -> In c text)
    /\ (l = body \/ l = body ++ [LF]).

(** [padded ls ls']: [ls'] is [ls] with blank lines (empty once stripped)
    inserted anywhere, none removed. *)
Inductive padded : list str -> list str -> Prop :=
| padded_nil : padded [] []
| padded_keep (l : str) (ls ls' : list str) :
    padded ls ls' -> padded (l :: ls) (l :: ls')
| padded_blank (b : str) (ls ls' : list str) :
    rstrip b = [] -> padded ls ls' -> padded ls (b :: ls').

(** A body line that goes to the expected original block (context or
    removal), and one that goes to the new block (context or addition). *)
Definition keeps_old (line_in_hunk_body : str) : bool :=
  match line_in_hunk_body with
  | op :: _ => N.eqb op 32 || N.eqb op 45
  | [] => false
  end.

Definition keeps_new (line_in_hunk_body : str) : bool :=
  match line_in_hunk_body with
  | op :: _ => N.eqb op 32 || N.eqb op 43
  | [] => false
  end.

(** A hunk header in the standard form, with or without the counts, and
    whatever follows the closing marker. *)
Definition count_text (count : option nat) : str :=
  match count with
  | None => []
  | Some n => lit "," ++ decimal n
  end.

Definition hunk_header_text (old_start : nat) (old_count : option nat)
    (new_start : nat) (new_count : option nat) (tail : str) : str :=
  lit "@@ -" ++ decimal old_start ++ count_text old_count
  ++ lit " +" ++ decimal new_start ++ count_text new_count
  ++ lit " @@" ++ tail.

Definition ascii_digit (c : char) : Prop := exists r, (r < 10)%N /\ c = (48 + r)%N.

(** A text with a final newline added when it is not empty and has none. *)
Definition with_final_newline (text : str) : str :=
  match text with
  | [] => []
  | _ => if N.eqb (last text 0%N) LF then text else text ++ [LF]
  end.

(** A part of the diff that leaves lines and offset as they are: not a hunk
    (line 138), or a hunk with an empty expected block and an empty new
    block (line 180). *)
Definition neutral (hunk_text : str) : Prop :=
  interpret_hunk hunk_text = NotAHunk
  \/ exists hunk_header old_start,
       interpret_hunk hunk_text = Hunk hunk_header old_start [] [].

(* ================================================================== *)
(** * Sample data *)
(* ================================================================== *)

(** Sample data for the matcher. *)
Definition retry_target : list str := map lit ["a"; "x"; "a"; "b"]%string.
Definition retry_hunk : list str := map lit ["a"; "b"]%string.
Definition drift_target : list str := map lit ["x"; "a  "; ""; "b"; "c"]%string.
Definition drift_hunk : list str := map lit ["a"; ""; ""; "b"]%string.

(** Sample data for the applier. *)
Definition hunk_text_of (lines : list String.string) : str :=
  join [LF] (map lit lines) ++ [LF].

Definition six_lines : list str := map lit ["a"; "b"; "c"; "d"; "e"; "f"]%string.
Definition three_hunks : list str :=
  [hunk_text_of ["@@ -0,0 +1,2 @@"; "+x"; "+y"]%string;
   hunk_text_of ["@@ -2,1 +4,3 @@"; "-b"; "+B1"; "+B2"; "+B3"]%string;
   hunk_text_of ["@@ -5,1 +9,1 @@"; "-e"; "+E"]%string].
Definition six_lines_patched : list str :=
  map lit ["x"; "y"; "a"; "B1"; "B2"; "B3"; "c"; "d"; "E"; "f"]%string.

Definition insert_hunk : str := hunk_text_of ["@@ -0,0 +1,2 @@"; "+x"; "+y"]%string.


Definition gap_lines : list str := map lit ["a"; ""; "b"]%string.
Definition context_hunk : str := hunk_text_of ["@@ -1,2 +1,2 @@"; " a"; " b"]%string.
Definition padded_hunk : str := lit "@@ -1 +1 @@" ++ [LF] ++ lit "+x  ".
Definition padded_hunk_then_other : str := padded_hunk ++ [LF] ++ lit "foo".

(** Sample worlds: the target at path [t], the diff at path [d]. *)
Definition text_of (lines : list String.string) : str :=
  concat (map (fun l => lit l ++ [LF]) lines).

Definition two_files (target diff : file_state) : world :=
  {| fs := fun p => if str_eqb p (lit "t") then target
                    else if str_eqb p (lit "d") then diff
                    else NotFound;
     write_error := None |}.

Definition abc_text : str := text_of ["a"; "b"; "c"]%string.
Definition abc_diff : str :=
  text_of ["@@ -1,3 +1,3 @@"; " a"; "-b"; "+B"; "c "]%string.
Definition lost_diff : str :=
  text_of ["@@ -1,2 +1,2 @@"; " a"; "-z"; "+Z"]%string.
Definition blank_diff : str := text_of ["  "; ""]%string.
Definition header_only_diff : str :=
  text_of ["--- a/notes.txt"; "+++ b/notes.txt"]%string.
Definition creation_diff : str :=
  text_of ["--- /dev/null"; "+++ b/hello.txt"; "@@ -0,0 +1,2 @@";
           "+hello"; "+world"]%string.
Definition git_creation_diff : str :=
  text_of ["diff --git a/hello.txt b/hello.txt"; "--- /dev/null";
           "+++ b/hello.txt"; "@@ -0,0 +1 @@"; "+hello"]%string.

Definition padded_drift_target : list str :=
  map lit [""; "x"; "a  "; ""; "  "; ""; "b"; ""; "c"]%string.

Definition bare_header_diff : str := text_of ["@@ -1 +1 @@"]%string.

(* ================================================================== *)
(** * Properties of the string primitives *)
(* ================================================================== *)

Local Open Scope nat_scope.

Lemma str_eqb_eq (a b : str) : str_eqb a b = true <-> a = b.
Proof.
  revert b; induction a as [|x a IH]; intros [|y b]; simpl;
    try (split; [discriminate | congruence]); [tauto|].
  rewrite andb_true_iff, N.eqb_eq, IH. split.
  - intros [-> ->]; reflexivity.
  - intros [= -> ->]; auto.
Qed.

Lemma str_eqb_refl (a : str) : str_eqb a a = true.
Proof. apply str_eqb_eq; reflexivity. Qed.

Lemma str_eqb_neq (a b : str) : str_eqb a b = false <-> a <> b.
Proof.
  rewrite <- str_eqb_eq. destruct (str_eqb a b); split; congruence.
Qed.

Lemma lines_eqb_eq (a b : list str) : lines_eqb a b = true <-> a = b.
Proof.
  revert b; induction a as [|x a IH]; intros [|y b]; simpl;
    try (split; [discriminate | congruence]); [tauto|].
  rewrite andb_true_iff, str_eqb_eq, IH. split.
  - intros [-> ->]; reflexivity.
  - intros [= -> ->]; auto.
Qed.

Lemma is_empty_true {A} (l : list A) : is_empty l = true <-> l = [].
Proof. destruct l; simpl; split; congruence. Qed.

Lemma is_empty_false {A} (l : list A) : is_empty l = false <-> l <> [].
Proof. destruct l; simpl; split; congruence. Qed.

Lemma skipn_nth_cons {A} (l : list A) (i : nat) (d : A) :
  i < length l -> skipn i l = nth i l d :: skipn (S i) l.
Proof.
  revert i; induction l as [|x l IH]; intros i Hi; simpl in Hi; [lia|].
  destruct i as [|i]; [reflexivity|].
  simpl. apply IH. lia.
Qed.

Lemma nth_skipn_shift {A} (l : list A) (i k : nat) (d : A) :
  nth k (skipn i l) d = nth (i + k) l d.
Proof.
  revert i; induction l as [|x l IH]; intros [|i]; simpl; try reflexivity.
  - destruct k; reflexivity.
  - apply IH.
Qed.

Lemma slice_cons {A} (l : list A) (s e : nat) (d : A) :
  s < e -> s < length l ->
  slice l s e = nth s l d :: slice l (S s) e.
Proof.
  intros Hse Hs. unfold slice.
  rewrite (skipn_nth_cons l s d Hs).
  replace (e - s) with (S (e - S s)) by lia. reflexivity.
Qed.

Lemma slice_empty {A} (l : list A) (s e : nat) : e <= s -> slice l s e = [].
Proof. intros H. unfold slice. replace (e - s) with 0 by lia. reflexivity. Qed.

Lemma slice_length {A} (l : list A) (s e : nat) :
  s <= e -> e <= length l -> length (slice l s e) = e - s.
Proof.
  intros Hse He. unfold slice. rewrite length_firstn, length_skipn. lia.
Qed.

Lemma ascii_digit_value (r : N) :
  (r < 10)%N -> digit_value (48 + r)%N = Some (Z.of_N r).
Proof.
  intros Hr.
  assert (H : (r = 0 \/ r = 1 \/ r = 2 \/ r = 3 \/ r = 4 \/ r = 5 \/ r = 6
               \/ r = 7 \/ r = 8 \/ r = 9)%N) by lia.
  repeat (destruct H as [->|H]; [reflexivity|]). subst r. reflexivity.
Qed.

Lemma ascii_digit_is_digit (c : char) : ascii_digit c -> is_digit c = true.
Proof.
  intros (r & Hr & ->). unfold is_digit. rewrite ascii_digit_value by exact Hr.
  reflexivity.
Qed.

Lemma int_of_digits_snoc (ds : str) (c : char) (v : Z) :
  digit_value c = Some v ->
  int_of_digits (ds ++ [c]) = (10 * int_of_digits ds + v)%Z.
Proof.
  intros Hc. unfold int_of_digits. rewrite fold_left_app. simpl. rewrite Hc.
  reflexivity.
Qed.

(** The digits that [decimal_aux] puts in front of its accumulator. *)
Lemma decimal_aux_spec (fuel : nat) :
  forall n acc,
    N.to_nat n < fuel ->
    exists ds,
      decimal_aux fuel n acc = ds ++ acc
      /\ ds <> [] /\ Forall ascii_digit ds
      /\ int_of_digits ds = Z.of_N n.
Proof.
  induction fuel as [|fuel IH]; intros n acc Hn; [lia|].
  cbn [decimal_aux].
  assert (Hr : (n mod 10 < 10)%N) by (apply N.mod_lt; lia).
  destruct (n <? 10)%N eqn:Hlt.
  - apply N.ltb_lt in Hlt. exists [(48 + n mod 10)%N].
    repeat split; [discriminate|repeat constructor; exists (n mod 10)%N; auto|].
    transitivity (10 * int_of_digits [] + Z.of_N (n mod 10))%Z;
      [exact (int_of_digits_snoc [] _ _ (ascii_digit_value _ Hr))|].
    rewrite N.mod_small by exact Hlt. unfold int_of_digits. simpl. lia.
  - apply N.ltb_ge in Hlt.
    assert (Hdiv : (n / 10 < n)%N) by (apply N.div_lt; lia).
    destruct (IH (n / 10)%N ((48 + n mod 10)%N :: acc)) as
      (ds & Hds & Hne & Hall & Hval); [lia|].
    exists (ds ++ [(48 + n mod 10)%N]).
    rewrite Hds, <- app_assoc. repeat split.
    + destruct ds; discriminate.
    + apply Forall_app. split; [exact Hall|].
      repeat constructor. exists (n mod 10)%N. auto.
    + transitivity (10 * int_of_digits ds + Z.of_N (n mod 10))%Z;
        [exact (int_of_digits_snoc ds _ _ (ascii_digit_value _ Hr))|].
      rewrite Hval. rewrite (N.div_mod n 10) at 3 by lia. lia.
Qed.

Lemma decimal_spec (n : nat) :
  decimal n <> [] /\ Forall ascii_digit (decimal n)
  /\ int_of_digits (decimal n) = Z.of_nat n.
Proof.
  unfold decimal.
  destruct (decimal_aux_spec (S n) (N.of_nat n) []) as (ds & E & H1 & H2 & H3);
    [lia|].
  rewrite E, app_nil_r. repeat split; try assumption. rewrite H3. lia.
Qed.

(* ================================================================== *)
(** * Properties of the flexible matcher *)
(* ================================================================== *)

Lemma nonblank_trimmed_cons (l : str) (ls : list str) :
  nonblank_trimmed (l :: ls) =
  if is_empty (rstrip l) then nonblank_trimmed ls
  else rstrip l :: nonblank_trimmed ls.
Proof. unfold nonblank_trimmed. simpl. destruct (rstrip l); reflexivity. Qed.

Lemma core_pattern_trimmed (hunk_lines : list str) :
  Forall trimmed hunk_lines ->
  core_pattern hunk_lines = nonblank_trimmed hunk_lines.
Proof.
  intros H. unfold nonblank_trimmed, core_pattern. f_equal.
  induction H as [|l ls Hl _ IH]; simpl; [reflexivity|].
  rewrite Hl. f_equal. exact IH.
Qed.

Lemma core_pattern_nonempty (hunk_lines : list str) :
  Forall (fun c => c <> []) (core_pattern hunk_lines).
Proof.
  apply Forall_forall. intros c Hc. unfold core_pattern in Hc.
  apply filter_In in Hc. destruct Hc as [_ Hc]. destruct c; [discriminate|congruence].
Qed.

Lemma nth_nonempty (core : list str) (k : nat) :
  Forall (fun c => c <> []) core -> k < length core -> nth k core [] <> [].
Proof.
  intros H Hk. rewrite Forall_forall in H. apply H. apply nth_In. exact Hk.
Qed.

Section Matcher.

Variable core : list str.
Hypothesis core_nonblank : Forall (fun c => c <> []) core.

(** The walk consumes lines whose non-blank stripped texts are the pattern
    entries it has advanced over. *)
Lemma walk_sound (rest : list str) :
  forall pattern_ptr target_ptr pattern_ptr' target_ptr',
    walk core rest pattern_ptr target_ptr = (pattern_ptr', target_ptr') ->
    target_ptr <= target_ptr' <= target_ptr + length rest
    /\ pattern_ptr <= pattern_ptr'
    /\ nonblank_trimmed (firstn (target_ptr' - target_ptr) rest)
       = firstn (pattern_ptr' - pattern_ptr) (skipn pattern_ptr core).
Proof.
  induction rest as [|line rest IH]; intros pp tp pp' tp' H; simpl in H.
  - injection H as <- <-. rewrite !Nat.sub_diag. simpl. repeat split; lia.
  - destruct (pp <? length core) eqn:Hlt.
    + apply Nat.ltb_lt in Hlt.
      destruct (str_eqb (rstrip line) (nth pp core [])) eqn:Heq.
      * apply str_eqb_eq in Heq.
        apply IH in H. destruct H as (Ht & Hp & Hc). simpl.
        repeat split; try lia.
        replace (tp' - tp) with (S (tp' - S tp)) by lia.
        replace (pp' - pp) with (S (pp' - S pp)) by lia.
        rewrite (skipn_nth_cons core pp [] Hlt).
        simpl firstn. rewrite nonblank_trimmed_cons, Heq, Hc.
        destruct (nth pp core []) eqn:Hn; [|reflexivity].
        exfalso. apply (nth_nonempty core pp core_nonblank Hlt). exact Hn.
      * destruct (str_eqb (rstrip line) []) eqn:Hb; simpl in H.
        -- apply str_eqb_eq in Hb.
           apply IH in H. destruct H as (Ht & Hp & Hc). simpl.
           repeat split; try lia.
           replace (tp' - tp) with (S (tp' - S tp)) by lia.
           simpl firstn. rewrite nonblank_trimmed_cons, Hb. exact Hc.
        -- injection H as <- <-. rewrite !Nat.sub_diag. simpl.
           repeat split; lia.
    + injection H as <- <-. rewrite !Nat.sub_diag. simpl. repeat split; lia.
Qed.

(** Leaving the walk before the end of the pattern and before the end of
    the file is leaving it by [break]: on a non-blank line that differs from
    the next pattern entry. *)
Lemma walk_break (rest : list str) :
  forall pattern_ptr target_ptr pattern_ptr' target_ptr',
    walk core rest pattern_ptr target_ptr = (pattern_ptr', target_ptr') ->
    pattern_ptr' < length core ->
    target_ptr' < target_ptr + length rest ->
    rstrip (nth (target_ptr' - target_ptr) rest []) <> nth pattern_ptr' core []
    /\ rstrip (nth (target_ptr' - target_ptr) rest []) <> [].
Proof.
  induction rest as [|line rest IH]; intros pp tp pp' tp' H Hp Ht; simpl in H.
  - injection H as <- <-. simpl in Ht. lia.
  - destruct (pp <? length core) eqn:Hlt.
    + destruct (str_eqb (rstrip line) (nth pp core [])) eqn:Heq.
      * pose proof (walk_sound _ _ _ _ _ H) as (Hb & _).
        apply IH in H; [|lia|simpl in Ht; lia].
        replace (tp' - tp) with (S (tp' - S tp)) by lia. exact H.
      * destruct (str_eqb (rstrip line) []) eqn:Hb; simpl in H.
        -- pose proof (walk_sound _ _ _ _ _ H) as (Hb' & _).
           apply IH in H; [|lia|simpl in Ht; lia].
           replace (tp' - tp) with (S (tp' - S tp)) by lia. exact H.
        -- injection H as <- <-. rewrite Nat.sub_diag. simpl.
           split; apply str_eqb_neq; assumption.
    + injection H as <- <-. apply Nat.ltb_ge in Hlt. lia.
Qed.

(** When the lines ahead carry the rest of the pattern between blank lines
    only, the walk reaches the end of the pattern. *)
Lemma walk_complete (consumed remaining : list str) :
  forall pattern_ptr target_ptr,
    pattern_ptr <= length core ->
    nonblank_trimmed consumed = skipn pattern_ptr core ->
    fst (walk core (consumed ++ remaining) pattern_ptr target_ptr) = length core.
Proof.
  induction consumed as [|line consumed IH]; intros pp tp Hpp Hc.
  - assert (pp = length core) as ->.
    { destruct (Nat.eq_dec pp (length core)) as [|Hne]; [assumption|].
      assert (Hlt : pp < length core) by lia.
      rewrite (skipn_nth_cons core pp [] Hlt) in Hc. discriminate. }
    simpl. destruct remaining; simpl; [reflexivity|].
    rewrite Nat.ltb_irrefl. reflexivity.
  - simpl. destruct (pp <? length core) eqn:Hlt.
    + apply Nat.ltb_lt in Hlt.
      rewrite nonblank_trimmed_cons, (skipn_nth_cons core pp [] Hlt) in Hc.
      pose proof (nth_nonempty core pp core_nonblank Hlt) as Hne.
      destruct (is_empty (rstrip line)) eqn:He.
      * apply is_empty_true in He. rewrite He.
        destruct (str_eqb [] (nth pp core [])) eqn:Heq.
        { apply str_eqb_eq in Heq. congruence. }
        simpl. apply IH; [lia|].
        rewrite Hc. symmetry. apply skipn_nth_cons. exact Hlt.
      * injection Hc as Hhd Htl. rewrite Hhd, str_eqb_refl.
        apply IH; [lia|exact Htl].
    + simpl. apply Nat.ltb_ge in Hlt. lia.
Qed.

End Matcher.

(** The scan stops on the first line at or after its start whose stripped
    text is [first], or at the end of the lines. *)
Lemma scan_first_spec (first : str) (rest : list str) :
  forall p,
    p <= scan_first first rest p <= p + length rest
    /\ (scan_first first rest p < p + length rest ->
        rstrip (nth (scan_first first rest p - p) rest []) = first)
    /\ (forall k, k < scan_first first rest p - p ->
        rstrip (nth k rest []) <> first).
Proof.
  induction rest as [|line rest IH]; intros p; simpl.
  - repeat split; try lia.
  - destruct (str_eqb (rstrip line) first) eqn:Heq; simpl.
    + rewrite Nat.sub_diag. repeat split; try lia.
      intros _. apply str_eqb_eq. exact Heq.
    + destruct (IH (S p)) as (Hb & Hh & Hn). repeat split; try lia.
      * intros Hq.
        replace (scan_first first rest (S p) - p)
          with (S (scan_first first rest (S p) - S p)) by lia.
        apply Hh. lia.
      * intros [|k] Hk; [apply str_eqb_neq; exact Heq|].
        apply Hn. lia.
Qed.

Lemma scan_target (target_lines : list str) (first : str) (i : nat) :
  i <= length target_lines ->
  i <= scan_first first (skipn i target_lines) i <= length target_lines
  /\ (scan_first first (skipn i target_lines) i < length target_lines ->
      rstrip (nth (scan_first first (skipn i target_lines) i) target_lines [])
      = first)
  /\ (forall k, i <= k < scan_first first (skipn i target_lines) i ->
      rstrip (nth k target_lines []) <> first).
Proof.
  intros Hi.
  destruct (scan_first_spec first (skipn i target_lines) i) as (Hb & Hh & Hn).
  rewrite length_skipn in Hb, Hh.
  repeat split; try lia.
  - intros Hq. rewrite nth_skipn_shift in Hh.
    replace (i + (scan_first first (skipn i target_lines) i - i))
      with (scan_first first (skipn i target_lines) i) in Hh by lia.
    apply Hh. lia.
  - intros k Hk. specialize (Hn (k - i)). rewrite nth_skipn_shift in Hn.
    replace (i + (k - i)) with k in Hn by lia. apply Hn. lia.
Qed.

(** Restarting the scan anywhere up to the line it stopped on stops on the
    same line. *)
Lemma scan_restart (target_lines : list str) (first : str) (i j : nat) :
  i <= j -> j <= scan_first first (skipn i target_lines) i ->
  j <= length target_lines ->
  scan_first first (skipn j target_lines) j
  = scan_first first (skipn i target_lines) i.
Proof.
  intros Hij Hjq Hj.
  destruct (scan_target target_lines first i) as (Hb & Hh & Hn); [lia|].
  destruct (scan_target target_lines first j) as (Hb' & Hh' & Hn'); [lia|].
  set (q := scan_first first (skipn i target_lines) i) in *.
  set (q' := scan_first first (skipn j target_lines) j) in *.
  destruct (Nat.lt_trichotomy q' q) as [Hlt | [Heq | Hgt]]; [|exact Heq|].
  - exfalso. apply (Hn q'); [lia|]. apply Hh'. lia.
  - exfalso. apply (Hn' q); [lia|]. apply Hh. lia.
Qed.

Lemma flexible_match_loop_cons (target_lines core : list str) (i : nat)
    (indices : list nat) :
  flexible_match_loop target_lines core (i :: indices)
  = match attempt target_lines core i with
    | Some r => r
    | None => flexible_match_loop target_lines core indices
    end.
Proof.
  unfold attempt. simpl.
  destruct (length target_lines <=? _); [reflexivity|].
  destruct (walk core _ 1 _) as [pp tp].
  destruct (pp =? length core); reflexivity.
Qed.

Lemma attempt_found (target_lines core : list str) (i : nat) (r : match_result) :
  attempt target_lines core i = Some r ->
  r = not_found \/ found_of r = true.
Proof.
  unfold attempt.
  destruct (length target_lines <=? _); [intros [= <-]; left; reflexivity|].
  destruct (walk core _ 1 _) as [pp tp].
  destruct (pp =? length core); [|discriminate].
  intros [= <-]. right. reflexivity.
Qed.

Lemma first_rest_pattern (core : list str) :
  core <> [] -> nth 0 core [] :: firstn (length core - 1) (skipn 1 core) = core.
Proof.
  destruct core as [|c cs]; [congruence|]. intros _. simpl.
  rewrite Nat.sub_0_r, firstn_all. reflexivity.
Qed.

(** A successful iteration returns a window of the file, not before the
    start index, whose non-blank stripped lines are the pattern. *)
Lemma attempt_sound (target_lines core : list str) (i : nat) (ms me : Z) :
  Forall (fun c => c <> []) core -> core <> [] ->
  i <= length target_lines ->
  attempt target_lines core i = Some (true, ms, me) ->
  exists s e,
    ms = Z.of_nat s /\ me = Z.of_nat e
    /\ i <= s /\ s < e /\ e <= length target_lines
    /\ nonblank_trimmed (slice target_lines s e) = core.
Proof.
  intros Hne Hcore Hi. unfold attempt.
  destruct (scan_target target_lines (nth 0 core []) i Hi) as (Hb & Hh & _).
  set (q := scan_first (nth 0 core []) (skipn i target_lines) i) in *.
  destruct (length target_lines <=? q) eqn:Hq; [discriminate|].
  apply Nat.leb_gt in Hq.
  destruct (walk core (skipn (S q) target_lines) 1 (S q)) as [pp tp] eqn:Hw.
  destruct (pp =? length core) eqn:Hpp; [|discriminate].
  apply Nat.eqb_eq in Hpp. subst pp.
  intros [= <- <-].
  apply (walk_sound core Hne) in Hw. destruct Hw as (Ht & _ & Hc).
  rewrite length_skipn in Ht.
  exists q, tp. repeat split; try lia.
  rewrite (slice_cons target_lines q tp []) by lia.
  rewrite nonblank_trimmed_cons, (Hh Hq).
  assert (H0 : nth 0 core [] <> []).
  { apply nth_nonempty; [exact Hne|]. destruct core; [congruence|simpl; lia]. }
  destruct (nth 0 core []) eqn:Hc0; [congruence|]. simpl is_empty. cbv iota.
  unfold slice. rewrite Hc, <- Hc0. apply first_rest_pattern. exact Hcore.
Qed.

Lemma flexible_match_loop_sound (target_lines core : list str) (start : nat)
    (indices : list nat) (ms me : Z) :
  Forall (fun c => c <> []) core -> core <> [] ->
  Forall (fun i => start <= i <= length target_lines) indices ->
  flexible_match_loop target_lines core indices = (true, ms, me) ->
  exists s e,
    ms = Z.of_nat s /\ me = Z.of_nat e
    /\ start <= s /\ s < e /\ e <= length target_lines
    /\ nonblank_trimmed (slice target_lines s e) = core.
Proof.
  intros Hne Hcore Hidx. induction Hidx as [|i indices Hi _ IH].
  - discriminate.
  - rewrite flexible_match_loop_cons.
    destruct (attempt target_lines core i) as [r|] eqn:Ha; [|exact IH].
    intros ->.
    destruct (attempt_sound target_lines core i ms me Hne Hcore) as
      (s & e & H1 & H2 & H3 & H4 & H5 & H6); [lia|exact Ha|].
    exists s, e. repeat split; try assumption; lia.
Qed.

(** The first non-blank line of a window whose non-blank stripped lines are
    the pattern. *)
Lemma window_first (target_lines core : list str) (e : nat) :
  core <> [] -> e <= length target_lines ->
  forall n s, e - s = n ->
    nonblank_trimmed (slice target_lines s e) = core ->
    exists p0,
      s <= p0 /\ p0 < e
      /\ rstrip (nth p0 target_lines []) = nth 0 core []
      /\ nonblank_trimmed (slice target_lines (S p0) e) = skipn 1 core.
Proof.
  intros Hcore He. induction n as [|n IH]; intros s Hn Hw.
  - rewrite slice_empty in Hw by lia.
    exfalso. apply Hcore. rewrite <- Hw. reflexivity.
  - rewrite (slice_cons target_lines s e []) in Hw by lia.
    rewrite nonblank_trimmed_cons in Hw.
    destruct (is_empty (rstrip (nth s target_lines []))) eqn:Hb.
    + destruct (IH (S s)) as (p0 & H1 & H2 & H3 & H4); [lia|exact Hw|].
      exists p0. repeat split; try assumption; lia.
    + exists s. rewrite <- Hw. simpl. repeat split; lia.
Qed.

(** Every start index up to the first line of such a window leads the loop
    to a match. *)
Lemma flexible_match_loop_complete (target_lines core : list str) (p0 e : nat) :
  Forall (fun c => c <> []) core -> core <> [] ->
  p0 < e -> e <= length target_lines ->
  rstrip (nth p0 target_lines []) = nth 0 core [] ->
  nonblank_trimmed (slice target_lines (S p0) e) = skipn 1 core ->
  forall n j, p0 - j = n -> j <= p0 ->
    found_of (flexible_match_loop target_lines core
                (seq j (length target_lines - j))) = true.
Proof.
  intros Hne Hcore Hpe He Hp0 Hrest.
  assert (Hfst : fst (walk core (skipn (S p0) target_lines) 1 (S p0))
                 = length core).
  { rewrite <- (firstn_skipn (e - S p0) (skipn (S p0) target_lines)).
    apply walk_complete; [exact Hne| |exact Hrest].
    destruct core; [congruence|simpl; lia]. }
  induction n as [|n IH]; intros j Hn Hj;
    (replace (length target_lines - j)
       with (S (length target_lines - S j)) by lia);
    simpl seq; rewrite flexible_match_loop_cons;
    destruct (attempt target_lines core j) as [r|] eqn:Ha.
  all: destruct (scan_target target_lines (nth 0 core []) j) as (Hb & Hh & Hn');
    [lia|].
  all: assert (Hq : scan_first (nth 0 core []) (skipn j target_lines) j <= p0)
    by (destruct (Nat.le_gt_cases
                    (scan_first (nth 0 core []) (skipn j target_lines) j) p0)
          as [|Hgt]; [assumption|];
        exfalso; apply (Hn' p0); [lia|exact Hp0]).
  all: unfold attempt in Ha;
    set (q := scan_first (nth 0 core []) (skipn j target_lines) j) in *;
    destruct (length target_lines <=? q) eqn:Hlen;
    [apply Nat.leb_le in Hlen; lia|];
    destruct (walk core (skipn (S q) target_lines) 1 (S q)) as [pp tp] eqn:Hw;
    destruct (pp =? length core) eqn:Hpp; try discriminate.
  - injection Ha as <-. reflexivity.
  - exfalso. assert (Heq : q = p0) by lia.
    rewrite Heq in Hw. rewrite Hw in Hfst. simpl in Hfst.
    apply Nat.eqb_neq in Hpp. lia.
  - injection Ha as <-. reflexivity.
  - destruct (Nat.eq_dec q p0) as [Heq|Hne'].
    + exfalso. rewrite Heq in Hw. rewrite Hw in Hfst. simpl in Hfst.
      apply Nat.eqb_neq in Hpp. lia.
    + apply (IH (S j)); lia.
Qed.

Lemma range_length (start len : nat) :
  range start (Z.of_nat len) = seq start (len - start).
Proof. unfold range. f_equal. lia. Qed.

Lemma find_flexible_match_core (target_lines hunk_lines : list str) (start : nat) :
  core_pattern hunk_lines <> [] ->
  find_flexible_match target_lines hunk_lines start
  = flexible_match_loop target_lines (core_pattern hunk_lines)
      (seq start (length target_lines - start)).
Proof.
  intros Hc. unfold find_flexible_match.
  destruct (core_pattern hunk_lines) eqn:E; [congruence|].
  simpl is_empty. cbv iota. rewrite range_length. reflexivity.
Qed.

(** A match of a block with a non-blank line is a window of the file, not
    before the search start, whose non-blank stripped lines are the
    non-blank lines of the block. *)
Lemma find_flexible_match_sound (target_lines hunk_lines : list str)
    (start : nat) (ms me : Z) :
  core_pattern hunk_lines <> [] ->
  find_flexible_match target_lines hunk_lines start = (true, ms, me) ->
  exists s e,
    ms = Z.of_nat s /\ me = Z.of_nat e
    /\ start <= s /\ s < e /\ e <= length target_lines
    /\ nonblank_trimmed (slice target_lines s e) = core_pattern hunk_lines.
Proof.
  intros Hc. rewrite find_flexible_match_core by exact Hc.
  apply flexible_match_loop_sound;
    [apply core_pattern_nonempty | exact Hc |].
  apply Forall_forall. intros i Hi. apply in_seq in Hi. lia.
Qed.

Lemma find_flexible_match_complete (target_lines hunk_lines : list str)
    (start s e : nat) :
  core_pattern hunk_lines <> [] ->
  start <= s -> s <= e -> e <= length target_lines ->
  nonblank_trimmed (slice target_lines s e) = core_pattern hunk_lines ->
  found_of (find_flexible_match target_lines hunk_lines start) = true.
Proof.
  intros Hc Hs Hse He Hw. rewrite find_flexible_match_core by exact Hc.
  destruct (window_first target_lines (core_pattern hunk_lines) e Hc He
              (e - s) s eq_refl Hw) as (p0 & H1 & H2 & H3 & H4).
  apply (flexible_match_loop_complete target_lines (core_pattern hunk_lines)
           p0 e (core_pattern_nonempty hunk_lines) Hc H2 He H3 H4
           (p0 - start) start eq_refl).
  lia.
Qed.

Lemma found_of_triple (r : match_result) :
  found_of r = true -> r = (true, start_of r, end_of r).
Proof. destruct r as [[[] ms] me]; simpl; [reflexivity|discriminate]. Qed.

Lemma nonblank_trimmed_exists (hunk_lines : list str) :
  Exists (fun l => rstrip l <> []) hunk_lines ->
  nonblank_trimmed hunk_lines <> [].
Proof.
  induction 1 as [l ls Hl | l ls _ IH]; rewrite nonblank_trimmed_cons.
  - destruct (rstrip l); [congruence|discriminate].
  - destruct (is_empty (rstrip l)); [exact IH|discriminate].
Qed.

(** ** The retry after a failed alignment *)

Lemma attempt_restart (target_lines core : list str) (i j : nat) :
  i <= j -> j <= scan_first (nth 0 core []) (skipn i target_lines) i ->
  j <= length target_lines ->
  attempt target_lines core j = attempt target_lines core i.
Proof.
  intros Hij Hjq Hj. unfold attempt.
  rewrite (scan_restart target_lines (nth 0 core []) i j Hij Hjq Hj).
  reflexivity.
Qed.

(** When the iteration at [i] goes on, so do the iterations up to the line
    its scan stopped on, and the loop resumes just after that line. *)
Lemma flexible_match_loop_skip (target_lines core : list str) (i : nat) :
  attempt target_lines core i = None ->
  scan_first (nth 0 core []) (skipn i target_lines) i < length target_lines ->
  forall n j,
    scan_first (nth 0 core []) (skipn i target_lines) i - j = n ->
    i <= j -> j <= scan_first (nth 0 core []) (skipn i target_lines) i ->
    flexible_match_loop target_lines core (seq j (length target_lines - j))
    = flexible_match_loop target_lines core
        (seq (S (scan_first (nth 0 core []) (skipn i target_lines) i))
           (length target_lines
            - S (scan_first (nth 0 core []) (skipn i target_lines) i))).
Proof.
  intros Ha Hq.
  set (q := scan_first (nth 0 core []) (skipn i target_lines) i) in *.
  induction n as [|n IH]; intros j Hn Hij Hjq;
    (replace (length target_lines - j)
       with (S (length target_lines - S j)) by lia);
    simpl seq; rewrite flexible_match_loop_cons;
    rewrite (attempt_restart target_lines core i j Hij Hjq) by lia;
    rewrite Ha.
  - replace j with q by lia. reflexivity.
  - apply IH; lia.
Qed.

(** C3. For file lines and an expected block (whitespace-trimmed entries, as
    the interpreter builds them) with at least one non-blank line, and a
    search start: the flexible matcher succeeds if and only if the non-blank
    entries of the block occur in order in the stripped file lines at or
    after the search start, separated only by blank file lines; that is, some
    window of the file not before the start has, once its lines are stripped
    and its blank lines dropped, exactly the non-blank entries of the block.
    Blank lines of the file missing from the block, blank entries of the
    block missing from the file and trailing whitespace of the file lines do
    not matter; when the matcher succeeds the indices it returns delimit
    such a window. *)
Theorem flexible_match_iff_occurs
    (target_lines hunk_lines : list str) (start : nat) :
  Forall trimmed hunk_lines ->
  Exists (fun l => rstrip l <> []) hunk_lines ->
  (found_of (find_flexible_match target_lines hunk_lines start) = true
   <-> occurs_from target_lines hunk_lines start)
  /\ (found_of (find_flexible_match target_lines hunk_lines start) = true ->
      exists s e,
        start_of (find_flexible_match target_lines hunk_lines start) = Z.of_nat s
        /\ end_of (find_flexible_match target_lines hunk_lines start) = Z.of_nat e
        /\ start <= s /\ s < e /\ e <= length target_lines
        /\ nonblank_trimmed (slice target_lines s e)
           = nonblank_trimmed hunk_lines).
Proof.
  intros Htrim Hex.
  pose proof (core_pattern_trimmed hunk_lines Htrim) as Hcore.
  pose proof (nonblank_trimmed_exists hunk_lines Hex) as Hne.
  rewrite <- Hcore in Hne.
  assert (Hsound :
    found_of (find_flexible_match target_lines hunk_lines start) = true ->
    exists s e,
      start_of (find_flexible_match target_lines hunk_lines start) = Z.of_nat s
      /\ end_of (find_flexible_match target_lines hunk_lines start) = Z.of_nat e
      /\ start <= s /\ s < e /\ e <= length target_lines
      /\ nonblank_trimmed (slice target_lines s e)
         = nonblank_trimmed hunk_lines).
  { intros Hf. apply found_of_triple in Hf.
    destruct (find_flexible_match_sound target_lines hunk_lines start _ _ Hne Hf)
      as (s & e & H1 & H2 & H3 & H4 & H5 & H6).
    exists s, e. rewrite <- Hcore. repeat split; assumption. }
  split; [split|exact Hsound].
  - intros Hf. destruct (Hsound Hf) as (s & e & _ & _ & H3 & H4 & H5 & H6).
    exists s, e. repeat split; try assumption; lia.
  - intros (s & e & H1 & H2 & H3 & H4).
    apply (find_flexible_match_complete target_lines hunk_lines start s e);
      try assumption.
    rewrite Hcore. exact H4.
Qed.

Lemma flexible_match_iff_occurs_witness :
  found_of (find_flexible_match drift_target drift_hunk 0) = true
  <-> occurs_from drift_target drift_hunk 0.
Proof.
  apply (flexible_match_iff_occurs drift_target drift_hunk 0).
  - repeat constructor.
  - constructor. vm_compute. discriminate.
Defined.

(** The sample at work: the block a, blank, blank, b is found in the lines
    x, a with trailing spaces, blank, b, c, from the a to just after the b. *)
Example blank_line_drift_matches :
  find_flexible_match drift_target drift_hunk 0 = (true, 1%Z, 4%Z).
Proof. vm_compute. reflexivity. Qed.

(** C2, as the code has it. When the first walk of a search call is left on
    a non-blank file line that differs from the next expected entry, that
    candidate start fails and the search goes on: the call returns what a
    search started on the line after the failed occurrence of the first
    expected line returns.  Later occurrences of the first expected line are
    therefore tried, and the call fails only when none of them leads to a
    match. *)
Theorem mismatch_resumes_after_first_occurrence
    (target_lines hunk_lines : list str) (start : nat) :
  first_walk_breaks target_lines hunk_lines start = true ->
  (rstrip (nth (snd (first_walk target_lines hunk_lines start)) target_lines [])
     <> []
   /\ rstrip (nth (snd (first_walk target_lines hunk_lines start)) target_lines [])
     <> nth (fst (first_walk target_lines hunk_lines start))
          (core_pattern hunk_lines) [])
  /\ find_flexible_match target_lines hunk_lines start
     = find_flexible_match target_lines hunk_lines
         (S (first_occurrence target_lines hunk_lines start)).
Proof.
  unfold first_walk_breaks. rewrite !andb_true_iff, !Nat.ltb_lt.
  intros [[Hp Hpp] Htp].
  pose proof (core_pattern_nonempty hunk_lines) as Hne.
  assert (Hcore : core_pattern hunk_lines <> []).
  { intros E. rewrite E in Hpp. simpl in Hpp. lia. }
  destruct (scan_first_spec (nth 0 (core_pattern hunk_lines) [])
              (skipn start target_lines) start) as ((Hlo & _) & _).
  fold (first_occurrence target_lines hunk_lines start) in Hlo.
  destruct (first_walk target_lines hunk_lines start) as [pp tp] eqn:Hw.
  simpl fst in *. simpl snd in *. unfold first_walk in Hw.
  set (p := first_occurrence target_lines hunk_lines start) in *.
  split.
  - pose proof (walk_sound _ Hne _ _ _ _ _ Hw) as ((Hge & _) & _).
    destruct (walk_break _ Hne _ _ _ _ _ Hw Hpp) as (H1 & H2).
    { rewrite length_skipn. lia. }
    rewrite nth_skipn_shift in H1, H2.
    replace (S p + (tp - S p)) with tp in H1, H2 by lia.
    split; assumption.
  - rewrite !find_flexible_match_core by exact Hcore.
    apply (flexible_match_loop_skip target_lines (core_pattern hunk_lines) start)
      with (n := p - start);
      try exact Hp; try exact Hlo; try reflexivity; try lia.
    unfold attempt. fold (first_occurrence target_lines hunk_lines start).
    fold p. destruct (length target_lines <=? p) eqn:Hlen.
    { apply Nat.leb_le in Hlen. lia. }
    rewrite Hw. destruct (pp =? length (core_pattern hunk_lines)) eqn:E;
      [apply Nat.eqb_eq in E; lia|reflexivity].
Qed.

Lemma mismatch_resumes_after_first_occurrence_witness :
  find_flexible_match retry_target retry_hunk 0
  = find_flexible_match retry_target retry_hunk 1.
Proof.
  apply (mismatch_resumes_after_first_occurrence retry_target retry_hunk 0).
  vm_compute. reflexivity.
Defined.

(** C2, as stated, fails: in the file lines a, x, a, b searched for the block
    a, b from index 0, the first walk (from the a at index 0) is left on the
    non-blank line x, which differs from the next expected entry b; the call
    does not fail, it matches at the second a and returns (True, 2, 4). *)
Lemma no_retry_counterexample :
  first_walk_breaks retry_target retry_hunk 0 = true
  /\ find_flexible_match retry_target retry_hunk 0 = (true, 2%Z, 4%Z).
Proof. split; vm_compute; reflexivity. Qed.

(* ================================================================== *)
(** * Properties of the applier *)
(* ================================================================== *)

Local Open Scope Z_scope.

Lemma exact_match_loop_sound (target_lines hunk_lines : list str)
    (indices : list nat) (ms me : Z) :
  exact_match_loop target_lines hunk_lines indices = (true, ms, me) ->
  exists i, In i indices /\ ms = Z.of_nat i
            /\ me = Z.of_nat (i + length hunk_lines).
Proof.
  induction indices as [|i indices IH]; simpl; [discriminate|].
  destruct (lines_eqb _ hunk_lines).
  - intros [= <- <-]. exists i. auto.
  - intros H. destruct (IH H) as (j & Hj & H1 & H2). exists j. auto.
Qed.

(** The indices of a match delimit a region of the file. *)
Lemma find_flexible_match_bounds (target_lines hunk_lines : list str)
    (start : nat) (ms me : Z) :
  find_flexible_match target_lines hunk_lines start = (true, ms, me) ->
  exists s e : nat,
    ms = Z.of_nat s /\ me = Z.of_nat e
    /\ (s <= e)%nat /\ (e <= length target_lines)%nat.
Proof.
  destruct (core_pattern hunk_lines) as [|c0 cs] eqn:Hcore.
  - unfold find_flexible_match. rewrite Hcore. simpl is_empty. cbv iota.
    intros H. apply exact_match_loop_sound in H.
    destruct H as (i & Hi & -> & ->). unfold range in Hi. apply in_seq in Hi.
    exists i, (i + length hunk_lines)%nat. repeat split; lia.
  - intros H.
    destruct (find_flexible_match_sound target_lines hunk_lines start ms me)
      as (s & e & H1 & H2 & _ & H4 & H5 & _); [congruence|exact H|].
    exists s, e. repeat split; try assumption; lia.
Qed.

Lemma locate_bounds (patched_lines_raw original_block_stripped : list str)
    (old_start_line_1idx current_file_offset : Z) :
  found_of (locate patched_lines_raw original_block_stripped
              old_start_line_1idx current_file_offset) = true ->
  exists s e : nat,
    start_of (locate patched_lines_raw original_block_stripped
                old_start_line_1idx current_file_offset) = Z.of_nat s
    /\ end_of (locate patched_lines_raw original_block_stripped
                 old_start_line_1idx current_file_offset) = Z.of_nat e
    /\ (s <= e)%nat /\ (e <= length patched_lines_raw)%nat.
Proof.
  intros Hf. pose proof (found_of_triple _ Hf) as Ht. revert Ht.
  generalize (start_of (locate patched_lines_raw original_block_stripped
                          old_start_line_1idx current_file_offset)).
  generalize (end_of (locate patched_lines_raw original_block_stripped
                        old_start_line_1idx current_file_offset)).
  intros me ms. unfold locate.
  destruct (found_of (find_flexible_match patched_lines_raw
                        original_block_stripped
                        (Z.to_nat (window_search_start old_start_line_1idx
                                     current_file_offset)))); simpl;
    intros H; apply find_flexible_match_bounds in H; exact H.
Qed.

Lemma insertion_point_bounds (old_start_line_1idx current_file_offset : Z)
    (patched_lines_raw : list str) :
  0 <= insertion_point old_start_line_1idx current_file_offset patched_lines_raw
    <= Z.of_nat (length patched_lines_raw).
Proof. unfold insertion_point. lia. Qed.

(** One hunk moves the offset by as much as it changes the number of lines,
    which is what it puts in minus what it takes out. *)
Lemma apply_hunk_offset (patched_lines_raw : list str) (current_file_offset : Z)
    (hunk_text : str) (patched_lines_raw' : list str) (current_file_offset' : Z) :
  apply_hunk patched_lines_raw current_file_offset hunk_text
  = Continue patched_lines_raw' current_file_offset' ->
  current_file_offset' - current_file_offset
  = Z.of_nat (length patched_lines_raw') - Z.of_nat (length patched_lines_raw)
  /\ current_file_offset' - current_file_offset
     = fst (spliced patched_lines_raw current_file_offset hunk_text)
       - snd (spliced patched_lines_raw current_file_offset hunk_text).
Proof.
  unfold apply_hunk, spliced.
  destruct (interpret_hunk hunk_text) as [|h|h o e n].
  - intros [= <- <-]. simpl. lia.
  - discriminate.
  - unfold apply_blocks. destruct (is_empty e).
    + destruct (is_empty n) eqn:Hn.
      * apply is_empty_true in Hn. subst n. intros [= <- <-]. simpl. lia.
      * intros [= <- <-].
        pose proof (insertion_point_bounds o current_file_offset
                      patched_lines_raw) as Hb.
        rewrite !length_app, length_firstn, length_skipn. simpl. lia.
    + destruct (found_of (locate patched_lines_raw e o current_file_offset))
        eqn:Hf; [|discriminate].
      destruct (locate_bounds _ _ _ _ Hf) as (s & e' & Hs & He & Hse & Hel).
      intros [= <- <-]. rewrite Hs, He, !Nat2Z.id.
      rewrite !length_app, length_firstn, length_skipn. simpl. lia.
Qed.

Lemma run_hunks_offset (diff_parts : list str) :
  forall patched_lines_raw current_file_offset
         patched_lines_raw' current_file_offset',
    run_hunks diff_parts patched_lines_raw current_file_offset
    = Continue patched_lines_raw' current_file_offset' ->
    current_file_offset' - current_file_offset
    = Z.of_nat (length patched_lines_raw') - Z.of_nat (length patched_lines_raw)
    /\ current_file_offset' - current_file_offset
       = fst (run_spliced diff_parts patched_lines_raw current_file_offset)
         - snd (run_spliced diff_parts patched_lines_raw current_file_offset).
Proof.
  induction diff_parts as [|t parts IH]; intros p off p' off'; simpl.
  - intros [= <- <-]. lia.
  - destruct (apply_hunk p off t) as [p1 off1|] eqn:Hstep; [|discriminate].
    intros Hrun. apply apply_hunk_offset in Hstep. apply IH in Hrun.
    destruct (spliced p off t) as [a r].
    destruct (run_spliced parts p1 off1) as [a' r']. simpl in *. lia.
Qed.


(** The length of the body does not matter to the classification of a
    line: the first test of the loop only skips empty lines, as the second
    does. *)
Lemma classify_line_length (n m : nat) (blocks : list str * list str)
    (line_in_hunk_body : str) :
  classify_line n blocks line_in_hunk_body
  = classify_line m blocks line_in_hunk_body.
Proof.
  unfold classify_line. destruct blocks as [orig new].
  destruct line_in_hunk_body as [|op content]; simpl.
  - destruct (_ && _); destruct (_ && _); reflexivity.
  - reflexivity.
Qed.

Lemma fold_classify_length (n m : nat) (body : list str) :
  forall blocks,
    fold_left (classify_line n) body blocks
    = fold_left (classify_line m) body blocks.
Proof.
  induction body as [|l body IH]; intros blocks; simpl; [reflexivity|].
  rewrite (classify_line_length n m). apply IH.
Qed.

Lemma classify_line_other (n : nat) (blocks : list str * list str)
    (op : char) (content_raw : str) :
  op <> 32%N -> op <> 45%N -> op <> 43%N ->
  classify_line n blocks (op :: content_raw) = blocks.
Proof.
  intros H1 H2 H3. unfold classify_line. destruct blocks as [orig new].
  simpl. apply N.eqb_neq in H1, H2, H3. rewrite H1, H2, H3. reflexivity.
Qed.

(** C5. At every point of a patch run, that is after any number [k] of
    parts of the diff have been processed from the starting lines with
    offset 0, the cumulative offset is the number of lines put into the file
    so far minus the number of lines taken out of it so far by the applied
    hunks, and it is the length of the current lines minus the length of the
    starting lines.  The next hunk, when it is a replacement that matches at
    [start, end), moves the offset by exactly len(new block) - (end - start);
    when it is a pure insertion, by len(new block). *)
Theorem offset_tracks_line_count (diff_parts : list str) (k : nat)
    (target_lines_raw patched_lines_raw : list str) (current_file_offset : Z) :
  run_hunks (firstn k diff_parts) target_lines_raw 0
  = Continue patched_lines_raw current_file_offset ->
  current_file_offset
  = fst (run_spliced (firstn k diff_parts) target_lines_raw 0)
    - snd (run_spliced (firstn k diff_parts) target_lines_raw 0)
  /\ current_file_offset
     = Z.of_nat (length patched_lines_raw) - Z.of_nat (length target_lines_raw)
  /\ forall hunk_text hunk_header old_start expected new_block,
       interpret_hunk hunk_text = Hunk hunk_header old_start expected new_block ->
       (expected <> [] ->
        found_of (locate patched_lines_raw expected old_start
                    current_file_offset) = true ->
        apply_hunk patched_lines_raw current_file_offset hunk_text
        = Continue
            (firstn (Z.to_nat (start_of (locate patched_lines_raw expected
                                           old_start current_file_offset)))
               patched_lines_raw
             ++ new_block
             ++ skipn (Z.to_nat (end_of (locate patched_lines_raw expected
                                           old_start current_file_offset)))
                  patched_lines_raw)
            (current_file_offset
             + (Z.of_nat (length new_block)
                - (end_of (locate patched_lines_raw expected old_start
                             current_file_offset)
                   - start_of (locate patched_lines_raw expected old_start
                                 current_file_offset)))))
       /\ (expected = [] -> new_block <> [] ->
           exists patched_lines_raw',
             apply_hunk patched_lines_raw current_file_offset hunk_text
             = Continue patched_lines_raw'
                 (current_file_offset + Z.of_nat (length new_block))).
Proof.
  intros Hrun. apply run_hunks_offset in Hrun. destruct Hrun as (Hlen & Hsum).
  split; [lia|]. split; [lia|].
  intros t h o e n Hint. unfold apply_hunk. rewrite Hint. unfold apply_blocks.
  split.
  - intros He Hf. apply is_empty_false in He. rewrite He, Hf. reflexivity.
  - intros -> Hn. apply is_empty_false in Hn. simpl is_empty. rewrite Hn.
    eexists. reflexivity.
Qed.

Lemma offset_tracks_line_count_witness :
  4 = fst (run_spliced (firstn 3 three_hunks) six_lines 0)
      - snd (run_spliced (firstn 3 three_hunks) six_lines 0)
  /\ 4 = Z.of_nat (length six_lines_patched) - Z.of_nat (length six_lines).
Proof.
  destruct (offset_tracks_line_count three_hunks 3 six_lines
              six_lines_patched 4) as (H1 & H2 & _).
  - vm_compute. reflexivity.
  - split; [exact H1|exact H2].
Defined.

(** The lines taken out are those of the matched region, tolerated blank
    lines included: a hunk of two context lines a, b applied to a, blank, b
    takes three lines out and puts two in, and the offset becomes -1. *)
Example offset_counts_consumed_blank_lines :
  apply_hunk gap_lines 0 context_hunk = Continue (map lit ["a"; "b"]%string) (-1).
Proof. vm_compute. reflexivity. Qed.

(** C6. A hunk whose expected original block is empty and whose new block
    is not (a pure insertion) splices the new block into the file lines at
    index max(0, min(len(lines), (0 if oldStart = 0 else oldStart - 1)
    + offset)) and raises the offset by len(new block); a first hunk (offset
    0) with oldStart = 0 puts its lines at the very beginning of the file. *)
Theorem pure_insertion_splices_at_clamped_point
    (patched_lines_raw : list str) (current_file_offset : Z) (hunk_text : str)
    (hunk_header : str) (old_start : Z) (new_block : list str) :
  interpret_hunk hunk_text = Hunk hunk_header old_start [] new_block ->
  new_block <> [] ->
  apply_hunk patched_lines_raw current_file_offset hunk_text
  = Continue
      (firstn (Z.to_nat (Z.max 0 (Z.min (Z.of_nat (length patched_lines_raw))
                                    ((if old_start =? 0 then 0 else old_start - 1)
                                     + current_file_offset))))
         patched_lines_raw
       ++ new_block
       ++ skipn (Z.to_nat (Z.max 0 (Z.min (Z.of_nat (length patched_lines_raw))
                                      ((if old_start =? 0 then 0
                                        else old_start - 1)
                                       + current_file_offset))))
            patched_lines_raw)
      (current_file_offset + Z.of_nat (length new_block))
  /\ (old_start = 0 -> current_file_offset = 0 ->
      apply_hunk patched_lines_raw current_file_offset hunk_text
      = Continue (new_block ++ patched_lines_raw)
          (Z.of_nat (length new_block))).
Proof.
  intros Hint Hn. apply is_empty_false in Hn.
  assert (Hstep :
    apply_hunk patched_lines_raw current_file_offset hunk_text
    = Continue
        (firstn (Z.to_nat (insertion_point old_start current_file_offset
                             patched_lines_raw)) patched_lines_raw
         ++ new_block
         ++ skipn (Z.to_nat (insertion_point old_start current_file_offset
                               patched_lines_raw)) patched_lines_raw)
        (current_file_offset + Z.of_nat (length new_block))).
  { unfold apply_hunk. rewrite Hint. unfold apply_blocks. simpl is_empty.
    rewrite Hn. reflexivity. }
  split.
  - rewrite Hstep. unfold insertion_point.
    replace (Z.min (if old_start =? 0 then current_file_offset
                    else old_start - 1 + current_file_offset)
               (Z.of_nat (length patched_lines_raw)))
      with (Z.min (Z.of_nat (length patched_lines_raw))
              ((if old_start =? 0 then 0 else old_start - 1)
               + current_file_offset))
      by (destruct (old_start =? 0); lia).
    reflexivity.
  - intros -> ->. rewrite Hstep. unfold insertion_point. simpl.
    replace (Z.to_nat (Z.max 0 (Z.min 0 (Z.of_nat (length patched_lines_raw)))))
      with 0%nat by lia.
    reflexivity.
Qed.

Lemma pure_insertion_splices_at_clamped_point_witness :
  apply_hunk six_lines 0 insert_hunk
  = Continue (map lit ["x"; "y"]%string ++ six_lines) 2.
Proof.
  apply (pure_insertion_splices_at_clamped_point six_lines 0 insert_hunk
           (lit "@@ -0,0 +1,2 @@") 0 (map lit ["x"; "y"]%string)).
  - vm_compute. reflexivity.
  - discriminate.
  - reflexivity.
  - reflexivity.
Defined.






(** C10. A body line that is not empty and whose first character is none
    of ' ', '-' and '+' is ignored by the interpreter: it changes neither
    the expected original block nor the new block, no error arises from it,
    and the body is interpreted as the body without that line is. *)
Theorem unknown_marker_line_ignored (before after : list str) (op : char)
    (content_raw : str) :
  op <> 32%N -> op <> 45%N -> op <> 43%N ->
  interpret_body (before ++ (op :: content_raw) :: after)
  = interpret_body (before ++ after)
  /\ forall n blocks, classify_line n blocks (op :: content_raw) = blocks.
Proof.
  intros H1 H2 H3. split.
  - unfold interpret_body.
    rewrite (fold_classify_length _ (length (before ++ after))).
    rewrite !fold_left_app. simpl.
    rewrite classify_line_other by assumption. reflexivity.
  - intros n blocks. apply classify_line_other; assumption.
Qed.

Lemma unknown_marker_line_ignored_witness :
  interpret_body (map lit [" a"; "-b"; "+B"]%string ++ lit "c " :: [])
  = interpret_body (map lit [" a"; "-b"; "+B"]%string ++ []).
Proof.
  apply (unknown_marker_line_ignored (map lit [" a"; "-b"; "+B"]%string) []
           99%N (lit " ")); discriminate.
Defined.

(** The statement is about the lines of the body, once the hunk text has
    been stripped and split.  On the hunk text itself a last line of this
    kind is not without effect: it keeps the overall strip of line 134 away
    from the trailing whitespace of the line before it. *)
Example last_line_shields_trailing_whitespace :
  interpret_hunk padded_hunk_then_other
  = Hunk (lit "@@ -1 +1 @@") 1 [] [lit "x  "]
  /\ interpret_hunk padded_hunk = Hunk (lit "@@ -1 +1 @@") 1 [] [lit "x"].
Proof. split; vm_compute; reflexivity. Qed.

(* ================================================================== *)
(** * Properties of the run *)
(* ================================================================== *)

Lemma writes_app (tr1 tr2 : list event) :
  writes (tr1 ++ tr2) = writes tr1 ++ writes tr2.
Proof. unfold writes. apply flat_map_app. Qed.

Lemma writes_none (tr : list event) (text : str) :
  writes tr = [] -> ~ In (WriteTarget text) tr.
Proof.
  induction tr as [|ev tr IH]; simpl; [tauto|].
  destruct ev; simpl; try discriminate;
    intros H [E|Hin]; try discriminate; apply IH; assumption.
Qed.

Lemma re_split_no_marker (s : str) :
  forall bol, has_hunk_marker bol s = false -> re_split_aux bol s = (s, []).
Proof.
  induction s as [|c s IH]; intros bol H; [reflexivity|].
  cbn [has_hunk_marker] in H. apply orb_false_iff in H. destruct H as [H1 H2].
  cbn [re_split_aux]. rewrite (IH _ H2), H1. reflexivity.
Qed.

Lemma startswith_marker_line (l rest : str) :
  startswith (lit "@@") l = false ->
  startswith (lit "@@") (l ++ LF :: rest) = false.
Proof.
  change (lit "@@") with [64%N; 64%N].
  destruct l as [|c1 [|c2 l]]; simpl; intros H.
  - reflexivity.
  - apply andb_false_r.
  - exact H.
Qed.

Lemma marker_inside_line (l rest : str) :
  ~ In LF l ->
  has_hunk_marker false (l ++ LF :: rest) = has_hunk_marker true rest.
Proof.
  induction l as [|c l IH]; intros Hl; cbn [has_hunk_marker app].
  - rewrite N.eqb_refl. reflexivity.
  - simpl andb. cbn [orb].
    destruct (N.eqb c LF) eqn:E.
    + apply N.eqb_eq in E. exfalso. apply Hl. left. auto.
    + apply IH. intros Hin. apply Hl. right. exact Hin.
Qed.

Lemma marker_last_line (l : str) :
  ~ In LF l -> has_hunk_marker false l = false.
Proof.
  induction l as [|c l IH]; intros Hl; cbn [has_hunk_marker]; [reflexivity|].
  simpl andb. cbn [orb].
  destruct (N.eqb c LF) eqn:E.
  - apply N.eqb_eq in E. exfalso. apply Hl. left. auto.
  - apply IH. intros Hin. apply Hl. right. exact Hin.
Qed.

Lemma has_hunk_marker_first (l : str) :
  has_hunk_marker true l
  = startswith (lit "@@") l || has_hunk_marker false l.
Proof. destruct l; reflexivity. Qed.

(** A text made of lines none of which begins with the hunk marker has no
    hunk marker at the beginning of a line. *)
Lemma join_no_marker (lines : list str) :
  Forall (fun l => ~ In LF l) lines ->
  Forall (fun l => startswith (lit "@@") l = false) lines ->
  has_hunk_marker true (join [LF] lines) = false.
Proof.
  induction lines as [|l lines IH]; intros Hnl Hm; [reflexivity|].
  inversion Hnl as [|? ? Hl Hnl']; subst.
  inversion Hm as [|? ? Hs Hm']; subst.
  destruct lines as [|l2 lines].
  - simpl join. rewrite has_hunk_marker_first, Hs, marker_last_line by exact Hl.
    reflexivity.
  - change (join [LF] (l :: l2 :: lines))
      with (l ++ LF :: join [LF] (l2 :: lines)).
    rewrite has_hunk_marker_first, startswith_marker_line by exact Hs.
    rewrite marker_inside_line by exact Hl.
    apply IH; assumption.
Qed.

Lemma readlines_shape (text : str) : Forall (line_shape text) (readlines text).
Proof.
  induction text as [|c text IH]; simpl; [constructor|].
  assert (Hweaken : forall l, line_shape text l -> line_shape (c :: text) l).
  { intros l (body & H1 & H2 & H3). exists body.
    repeat split; [exact H1| |exact H3]. intros x Hx. right. auto. }
  destruct (N.eqb c LF) eqn:E.
  - apply N.eqb_eq in E. subst c. constructor.
    + exists []. repeat split; [tauto|intros x []|right; reflexivity].
    + eapply Forall_impl; [exact Hweaken|exact IH].
  - apply N.eqb_neq in E. destruct (readlines text) as [|l ls].
    + constructor; [|constructor].
      exists [c]. repeat split; [|intros x [<-|[]]; left; reflexivity|left; reflexivity].
      intros [H|[]]. congruence.
    + inversion IH as [|? ? (body & H1 & H2 & H3) Hls]; subst. constructor.
      * exists (c :: body). repeat split.
        -- intros [H|H]; [congruence|tauto].
        -- intros x [<-|Hx]; [left; reflexivity|right; auto].
        -- destruct H3 as [-> | ->]; [left|right]; reflexivity.
      * eapply Forall_impl; [exact Hweaken|exact Hls].
Qed.

Lemma rstrip_newline_body (body : str) :
  ~ In LF body ->
  rstrip_newline body = body /\ rstrip_newline (body ++ [LF]) = body.
Proof.
  unfold rstrip_newline. induction body as [|c body IH]; intros Hb.
  - split; reflexivity.
  - destruct IH as [IH1 IH2]; [intros H; apply Hb; right; exact H|].
    assert (Hc : N.eqb LF c = false).
    { apply N.eqb_neq. intros E. apply Hb. left. auto. }
    cbn [rstrip_by app]. rewrite IH1, IH2, Hc. destruct body; split; reflexivity.
Qed.

Lemma lines_of_shape (text : str) :
  Forall (fun l => ~ In LF l /\ forall c, In c l -> In c text) (lines_of text).
Proof.
  unfold lines_of. apply Forall_map.
  eapply Forall_impl; [|apply readlines_shape].
  intros l (body & H1 & H2 & H3). simpl.
  destruct (rstrip_newline_body body H1) as [E1 E2].
  destruct H3 as [-> | ->]; [rewrite E1|rewrite E2]; split; assumption.
Qed.

Lemma lines_of_no_newline (text : str) :
  Forall (fun l => ~ In LF l) (lines_of text).
Proof.
  eapply Forall_impl; [|apply lines_of_shape]. simpl. tauto.
Qed.

(** No line of a whitespace-only text begins with the hunk marker. *)
Lemma whitespace_no_marker (text : str) :
  forallb is_space text = true ->
  Forall (fun l => startswith (lit "@@") l = false) (lines_of text).
Proof.
  intros Hws. eapply Forall_impl; [|apply lines_of_shape].
  intros l [_ Hin]. cbv beta in *.
  destruct l as [|c l]; [reflexivity|].
  assert (Hc : is_space c = true).
  { rewrite forallb_forall in Hws. apply Hws, Hin. left. reflexivity. }
  change (lit "@@") with [64%N; 64%N]. cbn [startswith].
  destruct (N.eqb 64 c) eqn:E; [|reflexivity].
  apply N.eqb_eq in E. subst c. discriminate.
Qed.

(** A diff text without hunk marker is segmented into no hunk at all: the
    run succeeds at line 129, before the loop and before any write. *)
Lemma patch_and_write_no_marker (target_file_path diff_file_path : str)
    (w : world) (tr : list event) (diff_content_for_split : str)
    (target_lines_raw : list str) :
  has_hunk_marker true diff_content_for_split = false ->
  patch_and_write target_file_path diff_file_path w tr diff_content_for_split
    target_lines_raw
  = succeed tr (fs w).
Proof.
  intros Hm. unfold patch_and_write.
  assert (Hnone : no_hunk_parts (segment diff_content_for_split) = true).
  { unfold segment, re_split_hunks.
    rewrite (re_split_no_marker _ true Hm). cbn [nth is_empty negb andb tl].
    rewrite has_hunk_marker_first in Hm. apply orb_false_iff in Hm.
    destruct Hm as [Hs _]. rewrite Hs. cbn [negb andb].
    destruct diff_content_for_split as [|c s]; [reflexivity|].
    cbn [is_empty negb andb].
    destruct (is_empty (strip (c :: s))) eqn:E; cbn [negb].
    - unfold no_hunk_parts. cbn [is_empty length nth orb Nat.eqb andb].
      exact E.
    - reflexivity. }
  rewrite Hnone. reflexivity.
Qed.

(** What [patch_and_write] does to the target: nothing before the loop over
    the hunks has gone through all of them, one write after. *)
Lemma patch_and_write_effects (target_file_path diff_file_path : str)
    (w : world) (tr : list event) (diff_content_for_split : str)
    (target_lines_raw : list str) :
  writes tr = [] ->
  (returned (patch_and_write target_file_path diff_file_path w tr
               diff_content_for_split target_lines_raw) = false ->
   (forall e, failure (patch_and_write target_file_path diff_file_path w tr
                         diff_content_for_split target_lines_raw)
              <> Some (TargetFileWriteFailure e)) ->
   fs_after (patch_and_write target_file_path diff_file_path w tr
               diff_content_for_split target_lines_raw) = fs w
   /\ writes (trace (patch_and_write target_file_path diff_file_path w tr
                       diff_content_for_split target_lines_raw)) = [])
  /\ (length (writes (trace (patch_and_write target_file_path diff_file_path
                               w tr diff_content_for_split target_lines_raw)))
      <= 1)%nat
  /\ (forall text,
        In (WriteTarget text)
          (trace (patch_and_write target_file_path diff_file_path w tr
                    diff_content_for_split target_lines_raw)) ->
        exists patched_lines_raw current_file_offset,
          run_hunks (segment diff_content_for_split) target_lines_raw 0
          = Continue patched_lines_raw current_file_offset
          /\ text = render patched_lines_raw
          /\ trace (patch_and_write target_file_path diff_file_path w tr
                      diff_content_for_split target_lines_raw)
             = tr ++ [WriteTarget text]).
Proof.
  intros Htr. unfold patch_and_write.
  destruct (no_hunk_parts (segment diff_content_for_split)).
  { simpl. rewrite Htr. repeat split; try discriminate; try (simpl; lia).
    intros text Hin. exfalso. exact (writes_none tr text Htr Hin). }
  destruct (run_hunks (segment diff_content_for_split) target_lines_raw 0)
    as [patched off|e].
  - assert (Hin : forall text,
      In (WriteTarget text) (tr ++ [WriteTarget (render patched)]) ->
      text = render patched).
    { intros text Hin. apply in_app_or in Hin. destruct Hin as [Hin|[E|[]]].
      - exfalso. exact (writes_none tr text Htr Hin).
      - congruence. }
    destruct (write_error w) as [[e left_on_disk]|]; simpl;
      rewrite writes_app, Htr; simpl.
    + repeat split; try lia.
      * exfalso. apply (H0 e). reflexivity.
      * exfalso. apply (H0 e). reflexivity.
      * intros text Ht. rewrite (Hin text Ht). exists patched, off. auto.
    + repeat split; try discriminate; try lia.
      intros text Ht. rewrite (Hin text Ht). exists patched, off. auto.
  - simpl. rewrite Htr. repeat split; try (simpl; lia).
    intros text Hin. exfalso. exact (writes_none tr text Htr Hin).
Qed.

(** A successful [patch_and_write] either stopped before the loop, with
    nothing written, or wrote once, and the target holds what was written. *)
Lemma patch_and_write_success (target_file_path diff_file_path : str)
    (w : world) (tr : list event) (diff_content_for_split : str)
    (target_lines_raw : list str) :
  writes tr = [] ->
  returned (patch_and_write target_file_path diff_file_path w tr
              diff_content_for_split target_lines_raw) = true ->
  (writes (trace (patch_and_write target_file_path diff_file_path w tr
                    diff_content_for_split target_lines_raw)) = []
   /\ fs_after (patch_and_write target_file_path diff_file_path w tr
                  diff_content_for_split target_lines_raw) = fs w)
  \/ exists patched_lines_raw,
       writes (trace (patch_and_write target_file_path diff_file_path w tr
                        diff_content_for_split target_lines_raw))
       = [render patched_lines_raw]
       /\ fs_after (patch_and_write target_file_path diff_file_path w tr
                      diff_content_for_split target_lines_raw)
            target_file_path
          = Content (render patched_lines_raw).
Proof.
  intros Htr. unfold patch_and_write.
  destruct (no_hunk_parts (segment diff_content_for_split)).
  { simpl. intros _. left. split; [exact Htr|reflexivity]. }
  destruct (run_hunks (segment diff_content_for_split) target_lines_raw 0)
    as [patched off|e]; [|discriminate].
  destruct (write_error w) as [[e left_on_disk]|]; [discriminate|].
  simpl. intros _. right. exists patched.
  rewrite writes_app, Htr. unfold write_file. rewrite str_eqb_refl.
  split; reflexivity.
Qed.

Lemma readlines_lines_of (text : str) :
  is_empty (readlines text) = is_empty (lines_of text).
Proof. unfold lines_of. destruct (readlines text); reflexivity. Qed.

(** C1. Whatever the target and the diff, a run that fails for a reason
    other than the final write itself (diff or target unreadable, malformed
    hunk header, hunk match failure) leaves the files as they were and has
    written nothing; the failure comes with its diagnostic.  In every run the
    target is written at most once, and a write only happens as the last
    operation, after the loop has gone through every hunk without error, with
    the lines that result from all of them. *)
Theorem failed_run_never_writes (target_file_path diff_file_path : str)
    (w : world) :
  (returned (apply_fuzzy_patch target_file_path diff_file_path w) = false ->
   (forall e, failure (apply_fuzzy_patch target_file_path diff_file_path w)
              <> Some (TargetFileWriteFailure e)) ->
   fs_after (apply_fuzzy_patch target_file_path diff_file_path w) = fs w
   /\ writes (trace (apply_fuzzy_patch target_file_path diff_file_path w)) = [])
  /\ (length (writes (trace (apply_fuzzy_patch target_file_path
                               diff_file_path w))) <= 1)%nat
  /\ (forall text,
        In (WriteTarget text)
          (trace (apply_fuzzy_patch target_file_path diff_file_path w)) ->
        exists diff_text target_lines_raw patched_lines_raw current_file_offset tr,
          fs w diff_file_path = Content diff_text
          /\ run_hunks (segment (join [LF] (lines_of diff_text)))
               target_lines_raw 0
             = Continue patched_lines_raw current_file_offset
          /\ text = render patched_lines_raw
          /\ trace (apply_fuzzy_patch target_file_path diff_file_path w)
             = tr ++ [WriteTarget text]
          /\ writes tr = [])
  /\ (returned (apply_fuzzy_patch target_file_path diff_file_path w) = true ->
      (writes (trace (apply_fuzzy_patch target_file_path diff_file_path w)) = []
       /\ fs_after (apply_fuzzy_patch target_file_path diff_file_path w) = fs w)
      \/ exists patched_lines_raw,
           writes (trace (apply_fuzzy_patch target_file_path diff_file_path w))
           = [render patched_lines_raw]
           /\ fs_after (apply_fuzzy_patch target_file_path diff_file_path w)
                target_file_path
              = Content (render patched_lines_raw)).
Proof.
  unfold apply_fuzzy_patch.
  destruct (fs w diff_file_path) as [|e|diff_text] eqn:Hd;
    try (simpl; repeat split; try lia; try discriminate;
         intros text [E|[]]; discriminate).
  destruct (is_empty (readlines diff_text)).
  { simpl. repeat split; try lia; try discriminate.
    - intros text [E|[]]. discriminate.
    - intros _. left. split; reflexivity. }
  fold (lines_of diff_text).
  assert (Hlift : forall tr target_lines_raw,
    writes tr = [] ->
    let o := patch_and_write target_file_path diff_file_path w tr
               (join [LF] (lines_of diff_text)) target_lines_raw in
    (returned o = false ->
     (forall e, failure o <> Some (TargetFileWriteFailure e)) ->
     fs_after o = fs w /\ writes (trace o) = [])
    /\ (length (writes (trace o)) <= 1)%nat
    /\ (forall text,
          In (WriteTarget text) (trace o) ->
          exists diff_text0 target_lines_raw0 patched_lines_raw
                 current_file_offset tr0,
            Content diff_text = Content diff_text0
            /\ run_hunks (segment (join [LF] (lines_of diff_text0)))
                 target_lines_raw0 0
               = Continue patched_lines_raw current_file_offset
            /\ text = render patched_lines_raw
            /\ trace o = tr0 ++ [WriteTarget text]
            /\ writes tr0 = [])
    /\ (returned o = true ->
        (writes (trace o) = [] /\ fs_after o = fs w)
        \/ exists patched_lines_raw,
             writes (trace o) = [render patched_lines_raw]
             /\ fs_after o target_file_path
                = Content (render patched_lines_raw))).
  { intros tr init Htr o.
    destruct (patch_and_write_effects target_file_path diff_file_path w tr
                (join [LF] (lines_of diff_text)) init Htr) as (H1 & H2 & H3).
    split; [exact H1|]. split; [exact H2|]. split.
    - intros text Hin.
      destruct (H3 text Hin) as (patched & off & Ha & Hb & Hc).
      exists diff_text, init, patched, off, tr. auto.
    - apply patch_and_write_success. exact Htr. }
  destruct (is_new_file_diff (lines_of diff_text)).
  - apply Hlift. reflexivity.
  - destruct (fs w target_file_path) as [|e|target_text];
      try (simpl; repeat split; try lia; try discriminate;
           intros text [E|[E|[]]]; discriminate).
    apply Hlift. reflexivity.
Qed.

Lemma failed_run_never_writes_witness :
  fs_after (apply_fuzzy_patch (lit "t") (lit "d")
              (two_files (Content abc_text) (Content lost_diff)))
  = fs (two_files (Content abc_text) (Content lost_diff))
  /\ writes (trace (apply_fuzzy_patch (lit "t") (lit "d")
                      (two_files (Content abc_text) (Content lost_diff)))) = [].
Proof.
  apply (failed_run_never_writes (lit "t") (lit "d")
           (two_files (Content abc_text) (Content lost_diff))).
  - vm_compute. reflexivity.
  - intros e. vm_compute. discriminate.
Defined.

(** C4. For a target whose lines are a, b, c and a diff whose lines are the
    hunk header @@ -1,3 +1,3 @@ followed by " a", "-b", "+B", "c ", the run
    succeeds and the target then holds exactly the lines a, B, c. *)
Theorem concrete_scenario (target_file_path diff_file_path : str) (w : world)
    (target_text diff_text : str) :
  fs w target_file_path = Content target_text ->
  fs w diff_file_path = Content diff_text ->
  lines_of target_text = map lit ["a"; "b"; "c"]%string ->
  lines_of diff_text
  = map lit ["@@ -1,3 +1,3 @@"; " a"; "-b"; "+B"; "c "]%string ->
  write_error w = None ->
  returned (apply_fuzzy_patch target_file_path diff_file_path w) = true
  /\ exists patched_text,
       fs_after (apply_fuzzy_patch target_file_path diff_file_path w)
         target_file_path = Content patched_text
       /\ lines_of patched_text = map lit ["a"; "B"; "c"]%string
       /\ trace (apply_fuzzy_patch target_file_path diff_file_path w)
          = [ReadDiff; ReadTarget; WriteTarget patched_text].
Proof.
  intros Ht Hd Htl Hdl Hw. unfold apply_fuzzy_patch.
  rewrite Hd, readlines_lines_of. fold (lines_of diff_text). rewrite Hdl.
  cbn [is_empty map].
  replace (is_new_file_diff _) with false by (vm_compute; reflexivity).
  rewrite Ht. fold (lines_of target_text). rewrite Htl.
  unfold patch_and_write.
  replace (no_hunk_parts _) with false by (vm_compute; reflexivity).
  replace (run_hunks _ _ 0)
    with (Continue (map lit ["a"; "B"; "c"]%string) 0)
    by (vm_compute; reflexivity).
  rewrite Hw. simpl returned. split; [reflexivity|].
  exists (text_of ["a"; "B"; "c"]%string).
  simpl fs_after. simpl trace. unfold write_file. rewrite str_eqb_refl.
  repeat split; vm_compute; reflexivity.
Qed.

Lemma concrete_scenario_witness :
  returned (apply_fuzzy_patch (lit "t") (lit "d")
              (two_files (Content abc_text) (Content abc_diff))) = true.
Proof.
  apply (concrete_scenario (lit "t") (lit "d")
           (two_files (Content abc_text) (Content abc_diff))
           abc_text abc_diff);
    vm_compute; reflexivity.
Defined.

(** C8. For a readable target and a diff that is empty, made of whitespace
    only, or without any line that begins a hunk, the run succeeds, prints no
    diagnostic, writes nothing and leaves the files as they were. *)
Theorem no_hunk_diff_is_identity (target_file_path diff_file_path : str)
    (w : world) (target_text diff_text : str) :
  fs w target_file_path = Content target_text ->
  fs w diff_file_path = Content diff_text ->
  diff_text = []
  \/ forallb is_space diff_text = true
  \/ Forall (fun l => startswith (lit "@@") l = false) (lines_of diff_text) ->
  returned (apply_fuzzy_patch target_file_path diff_file_path w) = true
  /\ stderr (apply_fuzzy_patch target_file_path diff_file_path w) = []
  /\ fs_after (apply_fuzzy_patch target_file_path diff_file_path w) = fs w
  /\ writes (trace (apply_fuzzy_patch target_file_path diff_file_path w)) = [].
Proof.
  intros Ht Hd Hno.
  assert (Hlines :
    Forall (fun l => startswith (lit "@@") l = false) (lines_of diff_text)).
  { destruct Hno as [-> | [Hws | H]]; [constructor| |exact H].
    apply whitespace_no_marker. exact Hws. }
  pose proof (join_no_marker (lines_of diff_text)
                (lines_of_no_newline diff_text) Hlines) as Hm.
  unfold apply_fuzzy_patch. rewrite Hd.
  destruct (is_empty (readlines diff_text)); [repeat split|].
  fold (lines_of diff_text).
  destruct (is_new_file_diff (lines_of diff_text)).
  - rewrite patch_and_write_no_marker by exact Hm. repeat split.
  - rewrite Ht, patch_and_write_no_marker by exact Hm. repeat split.
Qed.

Lemma no_hunk_diff_is_identity_witness :
  returned (apply_fuzzy_patch (lit "t") (lit "d")
              (two_files (Content abc_text) (Content header_only_diff))) = true.
Proof.
  apply (no_hunk_diff_is_identity (lit "t") (lit "d")
           (two_files (Content abc_text) (Content header_only_diff))
           abc_text header_only_diff).
  - reflexivity.
  - reflexivity.
  - right. right. repeat constructor.
Defined.

(** Without a readable target, the empty diff still succeeds (line 86 comes
    before the target is opened), a whitespace-only one stops at line 109;
    the files are left as they were in both cases. *)
Example no_hunk_diff_without_target :
  returned (apply_fuzzy_patch (lit "t") (lit "d")
              (two_files NotFound (Content []))) = true
  /\ failure (apply_fuzzy_patch (lit "t") (lit "d")
                (two_files NotFound (Content blank_diff)))
     = Some TargetFileNotFound
  /\ fs_after (apply_fuzzy_patch (lit "t") (lit "d")
                 (two_files NotFound (Content blank_diff))) (lit "t")
     = NotFound.
Proof. repeat split; vm_compute; reflexivity. Qed.

(** C9, as the code has it. When the first line of the diff starts with
    [---] and contains [/dev/null] (or [a/dev/null]), the run is in creation
    mode: the target is not read, patching starts from the empty line
    sequence, and when the hunks apply and the write succeeds the target
    holds exactly the lines they produce from nothing. *)
Theorem creation_mode_on_first_line (target_file_path diff_file_path : str)
    (w : world) (diff_text : str) :
  fs w diff_file_path = Content diff_text ->
  startswith (lit "---") (nth 0 (lines_of diff_text) []) = true ->
  contains (lit "/dev/null") (nth 0 (lines_of diff_text) []) = true
  \/ contains (lit "a/dev/null") (nth 0 (lines_of diff_text) []) = true ->
  apply_fuzzy_patch target_file_path diff_file_path w
  = patch_and_write target_file_path diff_file_path w [ReadDiff]
      (join [LF] (lines_of diff_text)) []
  /\ ~ In ReadTarget
         (trace (apply_fuzzy_patch target_file_path diff_file_path w))
  /\ forall patched_lines_raw current_file_offset,
       no_hunk_parts (segment (join [LF] (lines_of diff_text))) = false ->
       run_hunks (segment (join [LF] (lines_of diff_text))) [] 0
       = Continue patched_lines_raw current_file_offset ->
       write_error w = None ->
       returned (apply_fuzzy_patch target_file_path diff_file_path w) = true
       /\ fs_after (apply_fuzzy_patch target_file_path diff_file_path w)
            target_file_path
          = Content (render patched_lines_raw).
Proof.
  intros Hd Hdash Hnull.
  assert (Hrun :
    apply_fuzzy_patch target_file_path diff_file_path w
    = patch_and_write target_file_path diff_file_path w [ReadDiff]
        (join [LF] (lines_of diff_text)) []).
  { unfold apply_fuzzy_patch. rewrite Hd, readlines_lines_of.
    fold (lines_of diff_text).
    destruct (lines_of diff_text) as [|l ls] eqn:El.
    - simpl in Hdash. discriminate.
    - cbn [is_empty]. unfold is_new_file_diff.
      cbn [nth] in *. rewrite Hdash.
      destruct Hnull as [H|H]; rewrite H; [reflexivity|].
      rewrite orb_true_r. reflexivity. }
  rewrite Hrun. split; [reflexivity|]. split.
  - unfold patch_and_write.
    destruct (no_hunk_parts _); [simpl; intros [E|[]]; discriminate|].
    destruct (run_hunks _ [] 0);
      [|simpl; intros [E|[]]; discriminate].
    destruct (write_error w) as [[e st]|]; simpl;
      intros [E|[E|[]]]; discriminate.
  - intros patched off Hparts Hhunks Hw. unfold patch_and_write.
    rewrite Hparts, Hhunks, Hw. simpl. unfold write_file.
    rewrite str_eqb_refl. split; reflexivity.
Qed.

Lemma creation_mode_on_first_line_witness :
  apply_fuzzy_patch (lit "t") (lit "d") (two_files NotFound (Content creation_diff))
  = patch_and_write (lit "t") (lit "d")
      (two_files NotFound (Content creation_diff)) [ReadDiff]
      (join [LF] (lines_of creation_diff)) [].
Proof.
  apply (creation_mode_on_first_line (lit "t") (lit "d")
           (two_files NotFound (Content creation_diff)) creation_diff).
  - reflexivity.
  - vm_compute. reflexivity.
  - left. vm_compute. reflexivity.
Defined.

(** Creation mode at work: from no target at all, the diff creates the file
    with the two added lines. *)
Example creation_from_nothing :
  fs_after (apply_fuzzy_patch (lit "t") (lit "d")
              (two_files NotFound (Content creation_diff))) (lit "t")
  = Content (text_of ["hello"; "world"]%string).
Proof. vm_compute. reflexivity. Qed.

(** C9, as stated, fails: this diff has a [---] line that contains
    [/dev/null], but it is its second line (the first is the [diff --git]
    line); the run is not in creation mode, it reads the target, and with no
    target on disk it returns False with the target-not-found error instead
    of creating the file. *)
Lemma creation_marker_not_first_counterexample :
  existsb (fun l => startswith (lit "---") l && contains (lit "/dev/null") l)
    (lines_of git_creation_diff) = true
  /\ returned (apply_fuzzy_patch (lit "t") (lit "d")
                 (two_files NotFound (Content git_creation_diff))) = false
  /\ failure (apply_fuzzy_patch (lit "t") (lit "d")
                (two_files NotFound (Content git_creation_diff)))
     = Some TargetFileNotFound
  /\ trace (apply_fuzzy_patch (lit "t") (lit "d")
              (two_files NotFound (Content git_creation_diff)))
     = [ReadDiff; ReadTarget]
  /\ fs_after (apply_fuzzy_patch (lit "t") (lit "d")
                 (two_files NotFound (Content git_creation_diff))) (lit "t")
     = NotFound.
Proof. repeat split; vm_compute; reflexivity. Qed.

(* ================================================================== *)
(** * Further properties of the flexible matcher *)
(* ================================================================== *)

Local Open Scope nat_scope.

Lemma rstrip_by_idempotent (p : char -> bool) (s : str) :
  rstrip_by p (rstrip_by p s) = rstrip_by p s.
Proof.
  induction s as [|c s IH]; [reflexivity|].
  cbn [rstrip_by]. destruct (rstrip_by p s) as [|d t] eqn:E.
  - destruct (p c) eqn:Hc; [reflexivity|]. cbn [rstrip_by]. rewrite Hc.
    reflexivity.
  - cbn [rstrip_by]. cbn [rstrip_by] in IH. rewrite IH. reflexivity.
Qed.

Lemma rstrip_idempotent (s : str) : rstrip (rstrip s) = rstrip s.
Proof. apply rstrip_by_idempotent. Qed.

Lemma exact_match_loop_shape (target_lines hunk_lines : list str)
    (indices : list nat) :
  exact_match_loop target_lines hunk_lines indices = not_found
  \/ found_of (exact_match_loop target_lines hunk_lines indices) = true.
Proof.
  induction indices as [|i indices IH]; simpl; [left; reflexivity|].
  destruct (lines_eqb _ hunk_lines); [right; reflexivity|exact IH].
Qed.

Lemma flexible_match_loop_shape (target_lines core : list str)
    (indices : list nat) :
  flexible_match_loop target_lines core indices = not_found
  \/ found_of (flexible_match_loop target_lines core indices) = true.
Proof.
  induction indices as [|i indices IH]; [left; reflexivity|].
  rewrite flexible_match_loop_cons.
  destruct (attempt target_lines core i) as [r|] eqn:Ha; [|exact IH].
  destruct (attempt_found _ _ _ _ Ha) as [->|H]; [left|right]; auto.
Qed.

Lemma find_flexible_match_shape (target_lines hunk_lines : list str)
    (start : nat) :
  find_flexible_match target_lines hunk_lines start = not_found
  \/ found_of (find_flexible_match target_lines hunk_lines start) = true.
Proof.
  unfold find_flexible_match. destruct (is_empty (core_pattern hunk_lines)).
  - apply exact_match_loop_shape.
  - apply flexible_match_loop_shape.
Qed.

(** X1. The matcher returns either exactly (False, -1, -1) or (True, s, e)
    with search start <= s <= e <= len(target_lines): the indices of a match
    are valid slice bounds of the file and never lie before the search
    start.  With a non-blank line in the hunk the region is not empty; with
    none, it has the length of the hunk. *)
Theorem match_indices_are_slice_bounds
    (target_lines hunk_lines : list str) (start : nat) :
  find_flexible_match target_lines hunk_lines start = not_found
  \/ exists s e,
       find_flexible_match target_lines hunk_lines start
       = (true, Z.of_nat s, Z.of_nat e)
       /\ start <= s /\ s <= e /\ e <= length target_lines
       /\ (core_pattern hunk_lines <> [] -> s < e)
       /\ (core_pattern hunk_lines = [] -> e = s + length hunk_lines).
Proof.
  destruct (find_flexible_match_shape target_lines hunk_lines start)
    as [H|H]; [left; exact H|right].
  apply found_of_triple in H. revert H.
  generalize (start_of (find_flexible_match target_lines hunk_lines start)).
  generalize (end_of (find_flexible_match target_lines hunk_lines start)).
  intros me ms H.
  destruct (core_pattern hunk_lines) as [|c0 cs] eqn:Hcore.
  - pose proof H as H'. unfold find_flexible_match in H'.
    rewrite Hcore in H'. simpl is_empty in H'. cbv iota in H'.
    apply exact_match_loop_sound in H'.
    destruct H' as (i & Hi & -> & ->). unfold range in Hi. apply in_seq in Hi.
    exists i, (i + length hunk_lines). rewrite H.
    repeat split; try lia. congruence.
  - destruct (find_flexible_match_sound target_lines hunk_lines start ms me)
      as (s & e & -> & -> & H3 & H4 & H5 & _); [congruence|exact H|].
    exists s, e. rewrite H. repeat split; try lia. congruence.
Qed.

Lemma exact_match_loop_complete (target_lines hunk_lines : list str)
    (indices : list nat) (i : nat) :
  In i indices ->
  map rstrip (slice target_lines i (i + length hunk_lines)) = hunk_lines ->
  found_of (exact_match_loop target_lines hunk_lines indices) = true.
Proof.
  intros Hin Heq. induction indices as [|j indices IH]; [destruct Hin|].
  simpl. destruct (lines_eqb _ hunk_lines) eqn:E; [reflexivity|].
  destruct Hin as [->|Hin]; [|exact (IH Hin)].
  apply lines_eqb_eq in Heq. congruence.
Qed.

(** The exact loop returns the first index of its list at which the
    stripped window is the hunk. *)
Lemma exact_match_loop_first (target_lines hunk_lines : list str)
    (before after : list nat) (i : nat) :
  map rstrip (slice target_lines i (i + length hunk_lines)) = hunk_lines ->
  (forall j, In j before ->
     map rstrip (slice target_lines j (j + length hunk_lines)) <> hunk_lines) ->
  exact_match_loop target_lines hunk_lines (before ++ i :: after)
  = (true, Z.of_nat i, Z.of_nat (i + length hunk_lines)).
Proof.
  intros Hi Hbefore. induction before as [|j before IH]; simpl.
  - apply lines_eqb_eq in Hi. rewrite Hi. reflexivity.
  - destruct (lines_eqb _ hunk_lines) eqn:E.
    + apply lines_eqb_eq in E. exfalso. apply (Hbefore j); [left; auto|exact E].
    + apply IH. intros k Hk. apply Hbefore. right. exact Hk.
Qed.

Lemma exact_match_loop_none (target_lines hunk_lines : list str)
    (indices : list nat) :
  (forall j, In j indices ->
     map rstrip (slice target_lines j (j + length hunk_lines)) <> hunk_lines) ->
  exact_match_loop target_lines hunk_lines indices = not_found.
Proof.
  intros H. induction indices as [|j indices IH]; [reflexivity|]. simpl.
  destruct (lines_eqb _ hunk_lines) eqn:E.
  - apply lines_eqb_eq in E. exfalso. apply (H j); [left; auto|exact E].
  - apply IH. intros k Hk. apply H. right. exact Hk.
Qed.

Lemma seq_split_at (start n i : nat) :
  start <= i -> i < start + n ->
  seq start n = seq start (i - start) ++ i :: seq (S i) (start + n - S i).
Proof.
  intros H1 H2.
  replace n with ((i - start) + S (start + n - S i)) at 1 by lia.
  rewrite seq_app. simpl. replace (start + (i - start)) with i by lia.
  reflexivity.
Qed.

(** X2. A hunk without any non-blank line is matched exactly: the match is
    the first index i at or after the search start such that the window of
    len(hunk_lines) lines at i fits in the file and is, line by line once
    stripped, the hunk; when no index has such a window the matcher returns
    (False, -1, -1).  Blank lines are not skipped on this path. *)
Theorem blank_hunk_matches_first_exact_window
    (target_lines hunk_lines : list str) (start : nat) :
  core_pattern hunk_lines = [] ->
  (forall i,
     start <= i -> i + length hunk_lines <= length target_lines ->
     map rstrip (slice target_lines i (i + length hunk_lines)) = hunk_lines ->
     (forall j, start <= j -> j < i ->
        map rstrip (slice target_lines j (j + length hunk_lines))
        <> hunk_lines) ->
     find_flexible_match target_lines hunk_lines start
     = (true, Z.of_nat i, Z.of_nat (i + length hunk_lines)))
  /\ ((forall i,
         start <= i -> i + length hunk_lines <= length target_lines ->
         map rstrip (slice target_lines i (i + length hunk_lines))
         <> hunk_lines) ->
      find_flexible_match target_lines hunk_lines start = not_found).
Proof.
  intros Hcore. unfold find_flexible_match. rewrite Hcore. simpl is_empty.
  cbv iota. unfold range. split.
  - intros i Hs Hfit Hi Hleast.
    rewrite (seq_split_at start _ i) by lia.
    apply exact_match_loop_first; [exact Hi|].
    intros j Hj. apply in_seq in Hj. apply Hleast; lia.
  - intros Hnone. apply exact_match_loop_none.
    intros j Hj. apply in_seq in Hj. apply Hnone; lia.
Qed.

Lemma blank_hunk_matches_first_exact_window_witness :
  find_flexible_match (map lit ["a"; ""; "  "; "b"]%string)
    (map lit [""; ""]%string) 0
  = (true, 1%Z, 3%Z).
Proof.
  apply (proj1 (blank_hunk_matches_first_exact_window
                  (map lit ["a"; ""; "  "; "b"]%string)
                  (map lit [""; ""]%string) 0 eq_refl) 1).
  - lia.
  - simpl. lia.
  - vm_compute. reflexivity.
  - intros j _ Hj. assert (j = 0) as -> by lia. vm_compute. discriminate.
Defined.

Lemma walk_done (core rest : list str) (pattern_ptr target_ptr : nat) :
  length core <= pattern_ptr ->
  walk core rest pattern_ptr target_ptr = (pattern_ptr, target_ptr).
Proof.
  intros H. destruct rest as [|line rest]; [reflexivity|]. simpl.
  destruct (pattern_ptr <? length core) eqn:E; [|reflexivity].
  apply Nat.ltb_lt in E. lia.
Qed.

(** A walk that reaches the end of the pattern stops right after the line
    that matched the last pattern entry. *)
Lemma walk_last (core rest : list str) :
  forall pattern_ptr target_ptr target_ptr',
    pattern_ptr < length core ->
    walk core rest pattern_ptr target_ptr = (length core, target_ptr') ->
    target_ptr < target_ptr'
    /\ rstrip (nth (target_ptr' - target_ptr - 1) rest [])
       = nth (length core - 1) core [].
Proof.
  induction rest as [|line rest IH]; intros pp tp tp' Hpp H; simpl in H.
  - injection H as H1 H2. lia.
  - destruct (pp <? length core) eqn:Hlt; [|apply Nat.ltb_ge in Hlt; lia].
    destruct (str_eqb (rstrip line) (nth pp core [])) eqn:Heq.
    + apply str_eqb_eq in Heq.
      destruct (Nat.eq_dec (S pp) (length core)) as [E|E].
      * rewrite walk_done in H by lia. injection H as _ <-.
        split; [lia|]. replace (S tp - tp - 1) with 0 by lia. simpl.
        rewrite Heq. f_equal. lia.
      * apply IH in H; [|lia]. destruct H as [H1 H2]. split; [lia|].
        replace (tp' - tp - 1) with (S (tp' - S tp - 1)) by lia. exact H2.
    + destruct (str_eqb (rstrip line) []) eqn:Hb; simpl in H.
      * apply IH in H; [|lia]. destruct H as [H1 H2]. split; [lia|].
        replace (tp' - tp - 1) with (S (tp' - S tp - 1)) by lia. exact H2.
      * injection H as H1 H2. lia.
Qed.

Lemma flexible_match_loop_attempt (target_lines core : list str)
    (indices : list nat) (ms me : Z) :
  flexible_match_loop target_lines core indices = (true, ms, me) ->
  exists i, In i indices /\ attempt target_lines core i = Some (true, ms, me).
Proof.
  induction indices as [|i indices IH]; [discriminate|].
  rewrite flexible_match_loop_cons.
  destruct (attempt target_lines core i) as [r|] eqn:Ha.
  - intros ->. exists i. split; [left; reflexivity|exact Ha].
  - intros H. destruct (IH H) as (j & Hj & Hja). exists j. split; [right|]; auto.
Qed.

(** The loop returns the first line, from its first start index on, that
    carries the first pattern entry and from which the walk reaches the end
    of the pattern. *)
Lemma flexible_match_loop_least (target_lines core : list str) (ms me : Z) :
  forall n j,
    length target_lines - j = n ->
    flexible_match_loop target_lines core (seq j (length target_lines - j))
    = (true, ms, me) ->
    forall p,
      j <= p -> (Z.of_nat p < ms)%Z ->
      rstrip (nth p target_lines []) = nth 0 core [] ->
      fst (walk core (skipn (S p) target_lines) 1 (S p)) <> length core.
Proof.
  induction n as [n IH] using lt_wf_ind. intros j Hn Hloop p Hjp Hp Hocc.
  destruct n as [|n].
  { rewrite Hn in Hloop. discriminate. }
  assert (Hj : j < length target_lines) by lia.
  destruct (scan_target target_lines (nth 0 core []) j) as (Hb & Hh & Hno);
    [lia|].
  destruct (attempt target_lines core j) as [r|] eqn:Ha.
  - replace (length target_lines - j)
      with (S (length target_lines - S j)) in Hloop by lia.
    simpl seq in Hloop. rewrite flexible_match_loop_cons, Ha in Hloop.
    subst r. unfold attempt in Ha.
    set (q := scan_first (nth 0 core []) (skipn j target_lines) j) in *.
    destruct (length target_lines <=? q); [discriminate|].
    destruct (walk core (skipn (S q) target_lines) 1 (S q)) as [pp tp].
    destruct (pp =? length core); [|discriminate].
    injection Ha as <- _. exfalso. apply (Hno p); [lia|exact Hocc].
  - pose proof Ha as Ha'. unfold attempt in Ha'.
    set (q := scan_first (nth 0 core []) (skipn j target_lines) j) in *.
    destruct (length target_lines <=? q) eqn:Hlen; [discriminate|].
    apply Nat.leb_gt in Hlen.
    destruct (walk core (skipn (S q) target_lines) 1 (S q)) as [pp tp] eqn:Hw.
    destruct (pp =? length core) eqn:Hpp; [discriminate|].
    apply Nat.eqb_neq in Hpp.
    rewrite (flexible_match_loop_skip target_lines core j Ha Hlen (q - j) j)
      in Hloop; try reflexivity; try lia; try exact (proj1 Hb).
    fold q in Hloop.
    destruct (Nat.lt_trichotomy p q) as [Hlt|[Heq|Hgt]].
    + exfalso. apply (Hno p); [lia|exact Hocc].
    + subst p. rewrite Hw. simpl. exact Hpp.
    + apply (IH (length target_lines - S q)) with (j := S q);
        try assumption; try reflexivity; lia.
Qed.

Lemma last_nth {A} (l : list A) (d : A) :
  last l d = nth (length l - 1) l d.
Proof.
  induction l as [|x l IH]; [reflexivity|].
  destruct l as [|y l]; [reflexivity|].
  change (last (x :: y :: l) d) with (last (y :: l) d). rewrite IH.
  simpl. rewrite Nat.sub_0_r. reflexivity.
Qed.

(** X3. With a non-blank line in the hunk, the region of a match is tight
    and leftmost: it starts on the line that carries the first non-blank
    hunk line and ends just after the line that carries the last one (blank
    lines around the block are never part of the region), and no window that
    starts on a non-blank line earlier, at or after the search start, holds
    the non-blank hunk lines between blank lines only. *)
Theorem match_is_tight_and_leftmost
    (target_lines hunk_lines : list str) (start s e : nat) :
  core_pattern hunk_lines <> [] ->
  find_flexible_match target_lines hunk_lines start
  = (true, Z.of_nat s, Z.of_nat e) ->
  rstrip (nth s target_lines []) = nth 0 (core_pattern hunk_lines) []
  /\ rstrip (nth (e - 1) target_lines []) = last (core_pattern hunk_lines) []
  /\ forall s' e',
       start <= s' -> s' <= e' -> e' <= length target_lines ->
       rstrip (nth s' target_lines []) <> [] ->
       nonblank_trimmed (slice target_lines s' e') = core_pattern hunk_lines ->
       s <= s'.
Proof.
  intros Hcore Hfind.
  pose proof (core_pattern_nonempty hunk_lines) as Hne.
  rewrite find_flexible_match_core in Hfind by exact Hcore.
  set (core := core_pattern hunk_lines) in *.
  destruct (flexible_match_loop_attempt _ _ _ _ _ Hfind) as (i & Hi & Ha).
  apply in_seq in Hi.
  destruct (scan_target target_lines (nth 0 core []) i) as (Hb & Hh & _);
    [lia|].
  unfold attempt in Ha.
  set (q := scan_first (nth 0 core []) (skipn i target_lines) i) in *.
  destruct (length target_lines <=? q) eqn:Hlen; [discriminate|].
  apply Nat.leb_gt in Hlen.
  destruct (walk core (skipn (S q) target_lines) 1 (S q)) as [pp tp] eqn:Hw.
  destruct (pp =? length core) eqn:Hpp; [|discriminate].
  apply Nat.eqb_eq in Hpp. subst pp.
  injection Ha as Hs He. apply Nat2Z.inj in Hs, He. subst s e.
  split; [exact (Hh Hlen)|]. split.
  - rewrite last_nth.
    destruct (Nat.eq_dec (length core) 1) as [E1|E1].
    + rewrite walk_done in Hw by lia. injection Hw as _ <-.
      replace (S q - 1) with q by lia. rewrite E1. simpl. exact (Hh Hlen).
    + assert (Hlc : 1 < length core).
      { destruct core; [congruence|simpl in *; lia]. }
      destruct (walk_last core _ _ _ _ Hlc Hw) as [Hlt Hlast].
      rewrite nth_skipn_shift in Hlast.
      replace (S q + (tp - S q - 1)) with (tp - 1) in Hlast by lia.
      exact Hlast.
  - intros s' e' Hs' Hse' He' Hnb Hwin.
    destruct (Nat.le_gt_cases q s') as [|Hlt]; [assumption|exfalso].
    assert (Hlt' : s' < e').
    { destruct (Nat.eq_dec s' e') as [->|]; [|lia].
      rewrite slice_empty in Hwin by lia. exfalso. apply Hcore.
      rewrite <- Hwin. reflexivity. }
    rewrite (slice_cons target_lines s' e' []) in Hwin by lia.
    rewrite nonblank_trimmed_cons in Hwin.
    destruct (is_empty (rstrip (nth s' target_lines []))) eqn:Hb';
      [apply is_empty_true in Hb'; congruence|].
    assert (Hocc : rstrip (nth s' target_lines []) = nth 0 core []).
    { rewrite <- Hwin. reflexivity. }
    assert (Hrest : nonblank_trimmed (slice target_lines (S s') e')
                    = skipn 1 core).
    { rewrite <- Hwin. reflexivity. }
    apply (flexible_match_loop_least target_lines core (Z.of_nat q)
             (Z.of_nat tp) (length target_lines - start) start eq_refl Hfind
             s' Hs'); [lia|exact Hocc|].
    rewrite <- (firstn_skipn (e' - S s') (skipn (S s') target_lines)).
    apply walk_complete; [exact Hne| |exact Hrest].
    destruct core; [congruence|simpl; lia].
Qed.

Lemma match_is_tight_and_leftmost_witness :
  rstrip (nth 2 retry_target []) = nth 0 (core_pattern retry_hunk) [].
Proof.
  apply (match_is_tight_and_leftmost retry_target retry_hunk 0 2 4).
  - discriminate.
  - vm_compute. reflexivity.
Defined.

Lemma exact_match_loop_hit (target_lines hunk_lines : list str)
    (indices : list nat) :
  found_of (exact_match_loop target_lines hunk_lines indices) = true ->
  exists i, In i indices
            /\ map rstrip (slice target_lines i (i + length hunk_lines))
               = hunk_lines.
Proof.
  induction indices as [|i indices IH]; simpl; [discriminate|].
  destruct (lines_eqb _ hunk_lines) eqn:E.
  - intros _. exists i. apply lines_eqb_eq in E. auto.
  - intros H. destruct (IH H) as (j & Hj & Hw). exists j. auto.
Qed.

Lemma find_flexible_match_earlier (target_lines hunk_lines : list str)
    (start start' : nat) :
  start' <= start ->
  found_of (find_flexible_match target_lines hunk_lines start) = true ->
  found_of (find_flexible_match target_lines hunk_lines start') = true.
Proof.
  intros Hle Hf. destruct (core_pattern hunk_lines) as [|c0 cs] eqn:Hcore.
  - unfold find_flexible_match in *. rewrite Hcore in *. simpl is_empty in *.
    cbv iota in *. apply exact_match_loop_hit in Hf.
    destruct Hf as (i & Hi & Hw). unfold range in Hi. apply in_seq in Hi.
    apply (exact_match_loop_complete _ _ _ i); [|exact Hw].
    unfold range. apply in_seq. lia.
  - apply found_of_triple in Hf.
    assert (Hc : core_pattern hunk_lines <> []) by congruence.
    destruct (find_flexible_match_sound target_lines hunk_lines start _ _
                Hc Hf) as (s & e & _ & _ & H3 & H4 & H5 & H6).
    apply (find_flexible_match_complete target_lines hunk_lines start' s e);
      try lia; [congruence|exact H6].
Qed.

(** X4. Searching from an earlier line never loses a match: a hunk found
    from some search start is found from every earlier one.  So the search
    near the hint followed by the search of the whole file finds a region
    exactly when the search of the whole file does; the recorded line number
    of a hunk decides where it applies, never whether it applies. *)
Theorem hint_never_decides_whether_a_hunk_applies
    (patched_lines_raw original_block_stripped : list str)
    (old_start_line_1idx current_file_offset : Z) :
  (forall start start',
     start' <= start ->
     found_of (find_flexible_match patched_lines_raw original_block_stripped
                 start) = true ->
     found_of (find_flexible_match patched_lines_raw original_block_stripped
                 start') = true)
  /\ found_of (locate patched_lines_raw original_block_stripped
                 old_start_line_1idx current_file_offset)
     = found_of (find_flexible_match patched_lines_raw
                   original_block_stripped 0).
Proof.
  split.
  - intros start start'. apply find_flexible_match_earlier.
  - unfold locate.
    destruct (found_of (find_flexible_match patched_lines_raw
                          original_block_stripped
                          (Z.to_nat (window_search_start old_start_line_1idx
                                       current_file_offset)))) eqn:Hw;
      simpl; [|reflexivity].
    rewrite Hw. symmetry.
    apply (find_flexible_match_earlier _ _ _ 0) in Hw; [exact Hw|lia].
Qed.

Lemma scan_first_stripped (first : str) (rest : list str) :
  forall p, scan_first first (map rstrip rest) p = scan_first first rest p.
Proof.
  induction rest as [|line rest IH]; intros p; simpl; [reflexivity|].
  rewrite rstrip_idempotent, IH. reflexivity.
Qed.

Lemma walk_stripped (core rest : list str) :
  forall pattern_ptr target_ptr,
    walk core (map rstrip rest) pattern_ptr target_ptr
    = walk core rest pattern_ptr target_ptr.
Proof.
  induction rest as [|line rest IH]; intros pp tp; simpl; [reflexivity|].
  rewrite rstrip_idempotent, !IH. reflexivity.
Qed.

Lemma attempt_stripped (target_lines core : list str) (i : nat) :
  attempt (map rstrip target_lines) core i = attempt target_lines core i.
Proof.
  unfold attempt.
  rewrite length_map, skipn_map, scan_first_stripped, skipn_map, walk_stripped.
  reflexivity.
Qed.

Lemma map_rstrip_idempotent (ls : list str) :
  map rstrip (map rstrip ls) = map rstrip ls.
Proof.
  rewrite map_map. apply map_ext. intros l. apply rstrip_idempotent.
Qed.

Lemma core_pattern_idempotent (hunk_lines : list str) :
  core_pattern (core_pattern hunk_lines) = core_pattern hunk_lines.
Proof.
  unfold core_pattern. induction hunk_lines as [|l ls IH]; [reflexivity|].
  simpl. destruct (negb (is_empty l)) eqn:E; [|exact IH].
  simpl. rewrite E, IH. reflexivity.
Qed.

(** X5. What the matcher returns depends on the file lines only through
    their stripped text, and, when the hunk has a non-blank line, on the hunk
    only through its non-blank lines: stripping the trailing whitespace of
    every file line, or dropping the blank lines of the hunk, changes neither
    whether a match is found nor its indices. *)
Theorem match_depends_on_stripped_lines_and_core
    (target_lines hunk_lines : list str) (start : nat) :
  find_flexible_match (map rstrip target_lines) hunk_lines start
  = find_flexible_match target_lines hunk_lines start
  /\ (core_pattern hunk_lines <> [] ->
      find_flexible_match target_lines (core_pattern hunk_lines) start
      = find_flexible_match target_lines hunk_lines start).
Proof.
  split.
  - unfold find_flexible_match. rewrite length_map.
    destruct (is_empty (core_pattern hunk_lines)).
    + generalize (range start
                    (Z.of_nat (length target_lines)
                     - Z.of_nat (length hunk_lines) + 1)).
      intros indices. induction indices as [|i indices IH]; [reflexivity|].
      simpl. unfold slice at 1. rewrite skipn_map, firstn_map.
      rewrite map_rstrip_idempotent. fold (slice target_lines i
                                             (i + length hunk_lines)).
      rewrite IH. reflexivity.
    + generalize (range start (Z.of_nat (length target_lines))).
      intros indices. induction indices as [|i indices IH]; [reflexivity|].
      rewrite !flexible_match_loop_cons, attempt_stripped, IH. reflexivity.
  - intros Hcore.
    rewrite (find_flexible_match_core target_lines hunk_lines) by exact Hcore.
    rewrite find_flexible_match_core;
      rewrite core_pattern_idempotent; [reflexivity|exact Hcore].
Qed.

Lemma match_depends_on_stripped_lines_and_core_witness :
  find_flexible_match drift_target (core_pattern drift_hunk) 0
  = find_flexible_match drift_target drift_hunk 0.
Proof.
  apply (match_depends_on_stripped_lines_and_core drift_target drift_hunk 0).
  discriminate.
Defined.

Lemma padded_nonblank_trimmed (ls ls' : list str) :
  padded ls ls' -> nonblank_trimmed ls' = nonblank_trimmed ls.
Proof.
  induction 1 as [|l ls ls' _ IH|b ls ls' Hb _ IH].
  - reflexivity.
  - rewrite !nonblank_trimmed_cons, IH. reflexivity.
  - rewrite nonblank_trimmed_cons, Hb. exact IH.
Qed.

Lemma padded_app_split (t t' : list str) :
  padded t t' ->
  forall a b, t = a ++ b ->
    exists a' b', t' = a' ++ b' /\ padded a a' /\ padded b b'.
Proof.
  induction 1 as [|l ls ls' Hp IH|x ls ls' Hx Hp IH]; intros a b E.
  - symmetry in E. apply app_eq_nil in E. destruct E as [-> ->].
    exists [], []. repeat split; constructor.
  - destruct a as [|l0 a].
    + simpl in E. subst b. exists [], (l :: ls').
      repeat split; constructor. exact Hp.
    + simpl in E. injection E as <- E.
      destruct (IH a b E) as (a' & b' & -> & Ha & Hb).
      exists (l :: a'), b'. repeat split; [constructor; exact Ha|exact Hb].
  - destruct (IH a b E) as (a' & b' & -> & Ha & Hb).
    exists (x :: a'), b'. repeat split; [constructor; assumption|exact Hb].
Qed.

Lemma slice_app_middle {A} (a w c : list A) :
  slice (a ++ w ++ c) (length a) (length a + length w) = w.
Proof.
  unfold slice. rewrite skipn_app, skipn_all, Nat.sub_diag. simpl.
  replace (length a + length w - length a) with (length w) by lia.
  rewrite firstn_app, firstn_all, Nat.sub_diag. simpl. apply app_nil_r.
Qed.

Lemma locate_found (patched_lines_raw original_block_stripped : list str)
    (old_start_line_1idx current_file_offset : Z) :
  found_of (locate patched_lines_raw original_block_stripped
              old_start_line_1idx current_file_offset)
  = found_of (find_flexible_match patched_lines_raw original_block_stripped 0).
Proof.
  unfold locate.
  destruct (found_of (find_flexible_match patched_lines_raw
                        original_block_stripped
                        (Z.to_nat (window_search_start old_start_line_1idx
                                     current_file_offset)))) eqn:Hw;
    simpl; [|reflexivity].
  rewrite Hw. symmetry.
  apply (find_flexible_match_earlier _ _ _ 0) in Hw; [exact Hw|lia].
Qed.

(** X6. Blank lines added to the file never make a hunk fail: when a hunk
    with a non-blank line is found in some file lines, it is found in every
    file obtained from them by inserting blank (whitespace-only) lines
    anywhere, by the search of the whole file and by the search that the
    applier does, whatever the line numbers and offsets. *)
Theorem inserted_blank_lines_keep_the_match
    (target_lines target_lines' hunk_lines : list str) :
  padded target_lines target_lines' ->
  core_pattern hunk_lines <> [] ->
  found_of (find_flexible_match target_lines hunk_lines 0) = true ->
  found_of (find_flexible_match target_lines' hunk_lines 0) = true
  /\ forall old_start offset old_start' offset',
       found_of (locate target_lines hunk_lines old_start offset) = true
       /\ found_of (locate target_lines' hunk_lines old_start' offset') = true.
Proof.
  intros Hpad Hcore Hf.
  assert (Hf' : found_of (find_flexible_match target_lines' hunk_lines 0)
                = true).
  { apply found_of_triple in Hf.
    destruct (find_flexible_match_sound target_lines hunk_lines 0 _ _
                Hcore Hf) as (s & e & _ & _ & _ & Hse & He & Hw).
    assert (Hdec : target_lines
                   = firstn s target_lines
                     ++ slice target_lines s e
                     ++ skipn (e - s) (skipn s target_lines)).
    { unfold slice. rewrite firstn_skipn, firstn_skipn. reflexivity. }
    destruct (padded_app_split _ _ Hpad _ _ Hdec) as (a' & r' & -> & _ & Hr).
    destruct (padded_app_split _ _ Hr _ _ eq_refl) as (w' & c' & -> & Hw' & _).
    apply (find_flexible_match_complete _ hunk_lines 0 (length a')
             (length a' + length w')); try lia; try exact Hcore.
    - rewrite !length_app. lia.
    - rewrite slice_app_middle, (padded_nonblank_trimmed _ _ Hw'). exact Hw. }
  split; [exact Hf'|]. intros o off o' off'.
  rewrite !locate_found. split; assumption.
Qed.

Lemma inserted_blank_lines_keep_the_match_witness :
  found_of (find_flexible_match padded_drift_target drift_hunk 0) = true.
Proof.
  apply (inserted_blank_lines_keep_the_match drift_target padded_drift_target
           drift_hunk).
  - unfold drift_target, padded_drift_target. simpl.
    repeat first [apply padded_nil
                 | apply padded_keep
                 | apply padded_blank; [reflexivity|]].
  - discriminate.
  - vm_compute. reflexivity.
Defined.

(** When every line ahead carries the next pattern entry, the walk takes
    them all. *)
Lemma walk_exact (core post : list str) (mid : list str) :
  forall pattern_ptr target_ptr,
    pattern_ptr <= length core ->
    map rstrip mid = skipn pattern_ptr core ->
    walk core (mid ++ post) pattern_ptr target_ptr
    = (length core, target_ptr + length mid).
Proof.
  induction mid as [|line mid IH]; intros pp tp Hpp Hm.
  - assert (pp = length core) as ->.
    { destruct (Nat.eq_dec pp (length core)) as [|Hne]; [assumption|].
      assert (Hlt : pp < length core) by lia.
      rewrite (skipn_nth_cons core pp [] Hlt) in Hm. discriminate. }
    simpl. rewrite walk_done by lia. f_equal. lia.
  - assert (Hlt : pp < length core).
    { destruct (Nat.eq_dec pp (length core)) as [->|]; [|lia].
      rewrite skipn_all in Hm. discriminate. }
    rewrite (skipn_nth_cons core pp [] Hlt) in Hm. simpl in Hm.
    injection Hm as Hhd Htl. simpl.
    apply Nat.ltb_lt in Hlt. rewrite Hlt, Hhd, str_eqb_refl.
    rewrite IH; [f_equal; lia| |exact Htl].
    apply Nat.ltb_lt in Hlt. lia.
Qed.

Lemma core_pattern_all_nonblank (hunk_lines : list str) :
  Forall (fun l => l <> []) hunk_lines -> core_pattern hunk_lines = hunk_lines.
Proof.
  intros H. unfold core_pattern. induction H as [|l ls Hl _ IH]; [reflexivity|].
  simpl. destruct l; [congruence|]. simpl. rewrite IH. reflexivity.
Qed.

(** The match of a block that stands in the file as it is, with no earlier
    line carrying its first entry. *)
Lemma find_flexible_match_unique_context (pre mid post expected : list str)
    (start : nat) :
  map rstrip mid = expected -> expected <> [] ->
  Forall (fun l => l <> []) expected ->
  ~ In (nth 0 expected []) (map rstrip pre) ->
  start <= length pre ->
  find_flexible_match (pre ++ mid ++ post) expected start
  = (true, Z.of_nat (length pre), Z.of_nat (length pre + length mid)).
Proof.
  intros Hmid Hne Hnb Hpre Hstart.
  pose proof (core_pattern_all_nonblank expected Hnb) as Hcore.
  destruct mid as [|m0 mid]; [simpl in Hmid; congruence|].
  rewrite find_flexible_match_core by congruence. rewrite Hcore.
  set (T := pre ++ (m0 :: mid) ++ post).
  assert (HlenT : length T = length pre + S (length mid) + length post).
  { unfold T. rewrite !length_app. simpl. lia. }
  assert (Hnth : nth (length pre) T [] = m0).
  { unfold T. rewrite app_nth2, Nat.sub_diag by lia. reflexivity. }
  assert (H0 : rstrip m0 = nth 0 expected []).
  { rewrite <- Hmid. reflexivity. }
  replace (length T - start) with (S (length T - S start)) by lia.
  simpl seq. rewrite flexible_match_loop_cons. unfold attempt.
  destruct (scan_target T (nth 0 expected []) start) as (Hb & Hh & Hno);
    [lia|].
  set (q := scan_first (nth 0 expected []) (skipn start T) start) in *.
  assert (Hq : q = length pre).
  { destruct (Nat.lt_trichotomy q (length pre)) as [Hlt|[E|Hgt]];
      [exfalso|exact E|exfalso].
    - apply Hpre. rewrite <- Hh by lia. apply in_map.
      unfold T. rewrite app_nth1 by lia. apply nth_In. lia.
    - apply (Hno (length pre)); [lia|]. rewrite Hnth. exact H0. }
  rewrite Hq.
  destruct (length T <=? length pre) eqn:Hlen;
    [apply Nat.leb_le in Hlen; lia|].
  replace (skipn (S (length pre)) T) with (mid ++ post).
  2:{ unfold T. rewrite skipn_app, skipn_all2 by lia.
      replace (S (length pre) - length pre) with 1 by lia. reflexivity. }
  rewrite (walk_exact expected post mid 1 (S (length pre)));
    [|destruct expected; [congruence|simpl; lia]
     |rewrite <- Hmid; reflexivity].
  rewrite Nat.eqb_refl. cbn [length]. f_equal. f_equal. lia.
Qed.

(** X7. A replacement hunk whose expected block stands in the file as it is
    (the stripped lines of a region are the expected entries, none of them
    blank), with no earlier line carrying its first entry and a window start
    not beyond the region, replaces exactly that region: the lines before
    and after it are kept as they are, the new block takes its place, and
    the offset moves by len(new block) - len(region). *)
Theorem hunk_replaces_its_unique_context
    (pre mid post : list str) (current_file_offset : Z) (hunk_text : str)
    (hunk_header : str) (old_start : Z) (expected new_block : list str) :
  interpret_hunk hunk_text = Hunk hunk_header old_start expected new_block ->
  map rstrip mid = expected -> expected <> [] ->
  Forall (fun l => l <> []) expected ->
  ~ In (nth 0 expected []) (map rstrip pre) ->
  (window_search_start old_start current_file_offset
   <= Z.of_nat (length pre))%Z ->
  apply_hunk (pre ++ mid ++ post) current_file_offset hunk_text
  = Continue (pre ++ new_block ++ post)
      (current_file_offset
       + (Z.of_nat (length new_block) - Z.of_nat (length mid)))%Z.
Proof.
  intros Hint Hmid Hne Hnb Hpre Hwin.
  unfold apply_hunk. rewrite Hint. unfold apply_blocks.
  apply is_empty_false in Hne. rewrite Hne. apply is_empty_false in Hne.
  assert (Hloc : locate (pre ++ mid ++ post) expected old_start
                   current_file_offset
                 = (true, Z.of_nat (length pre),
                    Z.of_nat (length pre + length mid))).
  { unfold locate.
    rewrite (find_flexible_match_unique_context pre mid post expected
               (Z.to_nat (window_search_start old_start current_file_offset))
               Hmid Hne Hnb Hpre) by lia.
    reflexivity. }
  rewrite Hloc. unfold found_of, start_of, end_of. cbn [fst snd].
  rewrite !Nat2Z.id.
  rewrite firstn_app, firstn_all, Nat.sub_diag, app_nil_r.
  replace (skipn (length pre + length mid) (pre ++ mid ++ post)) with post.
  2:{ rewrite app_assoc, skipn_app, <- length_app, skipn_all, Nat.sub_diag.
      reflexivity. }
  f_equal. lia.
Qed.

Lemma hunk_replaces_its_unique_context_witness :
  apply_hunk (map lit ["a"]%string ++ map lit ["b"]%string
              ++ map lit ["c"; "d"; "e"; "f"]%string) 0
    (hunk_text_of ["@@ -2,1 +2,2 @@"; "-b"; "+B1"; "+B2"]%string)
  = Continue (map lit ["a"]%string ++ map lit ["B1"; "B2"]%string
              ++ map lit ["c"; "d"; "e"; "f"]%string)
      (0 + (Z.of_nat 2 - Z.of_nat 1))%Z.
Proof.
  apply (hunk_replaces_its_unique_context (map lit ["a"]%string)
           (map lit ["b"]%string) (map lit ["c"; "d"; "e"; "f"]%string) 0
           (hunk_text_of ["@@ -2,1 +2,2 @@"; "-b"; "+B1"; "+B2"]%string)
           (lit "@@ -2,1 +2,2 @@") 2 (map lit ["b"]%string)
           (map lit ["B1"; "B2"]%string)).
  - vm_compute. reflexivity.
  - vm_compute. reflexivity.
  - discriminate.
  - repeat constructor; discriminate.
  - vm_compute. intros [H|[]]. discriminate.
  - vm_compute. discriminate.
Defined.

(* ================================================================== *)
(** * Further properties of the interpreter *)
(* ================================================================== *)

Lemma fold_classify_blocks (n : nat) (body : list str) :
  forall original_block new_block,
    fold_left (classify_line n) body (original_block, new_block)
    = (original_block
       ++ map (fun l => rstrip (tl l)) (filter keeps_old body),
       new_block ++ map (@tl char) (filter keeps_new body)).
Proof.
  induction body as [|line body IH]; intros e nb.
  - simpl. rewrite !app_nil_r. reflexivity.
  - cbn [fold_left].
    rewrite (classify_line_length n 0 (e, nb) line).
    destruct line as [|op content].
    + cbn. apply IH.
    + unfold classify_line. cbn [is_empty andb].
      cbn [filter keeps_old keeps_new].
      destruct (N.eqb op 32) eqn:E32.
      * cbn [orb map tl]. rewrite IH, <- !app_assoc. reflexivity.
      * destruct (N.eqb op 45) eqn:E45.
        -- assert (E43 : N.eqb op 43 = false).
           { apply N.eqb_eq in E45. subst op. reflexivity. }
           rewrite E43. cbn [orb map tl]. rewrite IH, <- !app_assoc.
           reflexivity.
        -- destruct (N.eqb op 43) eqn:E43; cbn [orb map tl]; rewrite IH.
           ++ rewrite <- !app_assoc. reflexivity.
           ++ reflexivity.
Qed.

(** X8. The interpreter keeps order and drops nothing it should keep: the
    expected original block is the stripped content (the line without its
    first character) of the body lines that begin with a space or '-', in
    order, and the new block is the raw content of those that begin with a
    space or '+', in order; every entry of the expected block is
    whitespace-trimmed. *)
Theorem interpreter_blocks_are_filtered_contents (hunk_body_lines_raw : list str) :
  interpret_body hunk_body_lines_raw
  = (map (fun l => rstrip (tl l)) (filter keeps_old hunk_body_lines_raw),
     map (@tl char) (filter keeps_new hunk_body_lines_raw))
  /\ Forall trimmed (fst (interpret_body hunk_body_lines_raw))
  /\ length (fst (interpret_body hunk_body_lines_raw))
     <= length hunk_body_lines_raw
  /\ length (snd (interpret_body hunk_body_lines_raw))
     <= length hunk_body_lines_raw.
Proof.
  unfold interpret_body. rewrite fold_classify_blocks. cbn [app fst snd].
  split; [reflexivity|]. split; [|split].
  - apply Forall_map. apply Forall_forall. intros l _.
    apply rstrip_idempotent.
  - rewrite length_map. apply filter_length_le.
  - rewrite length_map. apply filter_length_le.
Qed.

Lemma span_digits_app (ds rest : str) :
  Forall ascii_digit ds ->
  match rest with c :: _ => is_digit c = false | [] => True end ->
  span_digits (ds ++ rest) = (ds, rest).
Proof.
  intros Hds Hrest. induction Hds as [|d ds Hd _ IH]; simpl.
  - destruct rest as [|c rest]; [reflexivity|]. simpl. rewrite Hrest.
    reflexivity.
  - rewrite (ascii_digit_is_digit d Hd), IH. reflexivity.
Qed.

Lemma startswith_app (p s : str) : startswith p (p ++ s) = true.
Proof.
  induction p as [|c p IH]; [reflexivity|]. simpl.
  rewrite N.eqb_refl. exact IH.
Qed.

Lemma strip_prefix_app (p s : str) : strip_prefix p (p ++ s) = Some s.
Proof.
  unfold strip_prefix. rewrite startswith_app, skipn_app, skipn_all,
    Nat.sub_diag. reflexivity.
Qed.

Lemma opt_count_count_text (count : option nat) (rest : str) :
  opt_count (count_text count ++ 32%N :: rest) = 32%N :: rest.
Proof.
  destruct count as [n|]; [|reflexivity].
  destruct (decimal_spec n) as (Hne & Hall & _).
  unfold count_text. change (lit ",") with [44%N]. cbn [app opt_count].
  change (N.eqb 44 44) with true. cbv iota.
  rewrite (span_digits_app (decimal n) (32%N :: rest) Hall)
    by (vm_compute; reflexivity).
  destruct (decimal n); [congruence|reflexivity].
Qed.

(** X9. Every hunk header in the standard form
    "@@ -<old start>[,<count>] +<new start>[,<count>] @@", with the numbers
    in decimal, with or without either count and whatever follows the
    closing marker, whose old start has at most 640 digits, is accepted, and
    the start line that the applier uses is the old start that the header
    shows.  The bound is for [int] at line 151, the only conversion: up to
    640 digits it converts whatever limit is configured, beyond the
    configured limit (4300 digits by default) it raises a [ValueError] that
    nothing catches. *)
Theorem standard_header_is_accepted (old_start : nat) (old_count : option nat)
    (new_start : nat) (new_count : option nat) (tail : str) :
  length (decimal old_start) <= 640 ->
  match_header (hunk_header_text old_start old_count new_start new_count tail)
  = Some (Z.of_nat old_start).
Proof.
  intros _. unfold hunk_header_text, match_header.
  rewrite strip_prefix_app.
  destruct (decimal_spec old_start) as (Hne1 & Hall1 & Hval1).
  destruct (decimal_spec new_start) as (Hne2 & Hall2 & Hval2).
  change (lit " +") with [32%N; 43%N]. change (lit " @@") with [32%N; 64%N; 64%N].
  cbn [app].
  rewrite (span_digits_app (decimal old_start) _ Hall1).
  2:{ destruct old_count as [n|]; vm_compute; reflexivity. }
  destruct (decimal old_start) as [|d1 ds1] eqn:E1; [congruence|].
  rewrite opt_count_count_text.
  change (strip_prefix [32%N; 43%N]
            (32%N :: 43%N :: decimal new_start ++ count_text new_count
                             ++ 32%N :: 64%N :: 64%N :: tail))
    with (strip_prefix [32%N; 43%N]
            ([32%N; 43%N] ++ decimal new_start ++ count_text new_count
                          ++ 32%N :: 64%N :: 64%N :: tail)).
  rewrite strip_prefix_app.
  rewrite (span_digits_app (decimal new_start) _ Hall2).
  2:{ destruct new_count as [n|]; vm_compute; reflexivity. }
  destruct (decimal new_start) as [|d2 ds2] eqn:E2; [congruence|].
  rewrite opt_count_count_text.
  change (32%N :: 64%N :: 64%N :: tail) with ([32%N; 64%N; 64%N] ++ tail).
  rewrite startswith_app, Hval1. reflexivity.
Qed.

Lemma standard_header_is_accepted_witness :
  match_header (hunk_header_text 12 (Some 3) 14 None (lit " def f():"))
  = Some (Z.of_nat 12).
Proof.
  apply (standard_header_is_accepted 12 (Some 3) 14 None (lit " def f():")).
  apply Nat.leb_le. vm_compute. reflexivity.
Defined.

(* ================================================================== *)
(** * Further properties of the run *)
(* ================================================================== *)

Lemma readlines_line (l rest : str) :
  ~ In LF l -> readlines (l ++ LF :: rest) = (l ++ [LF]) :: readlines rest.
Proof.
  induction l as [|c l IH]; intros Hl.
  - cbn [app readlines]. rewrite N.eqb_refl. reflexivity.
  - cbn [app readlines].
    destruct (N.eqb c LF) eqn:E.
    + apply N.eqb_eq in E. exfalso. apply Hl. left. auto.
    + rewrite IH; [reflexivity|]. intros H. apply Hl. right. exact H.
Qed.

Lemma render_concat (lines : list str) :
  render lines = concat (map (fun l => l ++ [LF]) lines).
Proof.
  unfold render. destruct lines as [|l lines]; [reflexivity|].
  cbn [is_empty]. revert l. induction lines as [|l2 lines IH]; intros l.
  - simpl. rewrite app_nil_r. reflexivity.
  - change (join [LF] (l :: l2 :: lines))
      with (l ++ [LF] ++ join [LF] (l2 :: lines)).
    rewrite <- !app_assoc, IH. simpl. rewrite <- !app_assoc. reflexivity.
Qed.

(** Reading back what [render] gives returns the lines, when no line holds
    a newline. *)
Lemma lines_of_render (lines : list str) :
  Forall (fun l => ~ In LF l) lines -> lines_of (render lines) = lines.
Proof.
  intros H. rewrite render_concat. unfold lines_of.
  induction H as [|l lines Hl _ IH]; [reflexivity|].
  cbn [map concat]. rewrite <- app_assoc. cbn [app].
  rewrite readlines_line by exact Hl. cbn [map]. rewrite IH.
  rewrite (proj2 (rstrip_newline_body l Hl)). reflexivity.
Qed.

Lemma split_breaks_no_linebreak (s : str) :
  forall after_cr,
    Forall (Forall (fun c => is_linebreak c = false)) (split_breaks after_cr s).
Proof.
  induction s as [|c s IH]; intros b; cbn [split_breaks].
  - repeat constructor.
  - destruct (b && N.eqb c LF); [apply IH|].
    destruct (is_linebreak c) eqn:E.
    + constructor; [constructor|apply IH].
    + specialize (IH false). destruct (split_breaks false s) as [|l ls].
      * repeat constructor. exact E.
      * inversion IH; subst. constructor; [constructor; assumption|assumption].
Qed.

Lemma Forall_removelast {A} (P : A -> Prop) (l : list A) :
  Forall P l -> Forall P (removelast l).
Proof.
  induction 1 as [|x l Hx Hl IH]; [constructor|].
  destruct l; [constructor|]. simpl. constructor; assumption.
Qed.

Lemma splitlines_no_newline (s : str) :
  Forall (fun l => ~ In LF l) (splitlines s).
Proof.
  assert (H : Forall (Forall (fun c => is_linebreak c = false)) (splitlines s)).
  { unfold splitlines. destruct (is_empty _);
      [apply Forall_removelast|]; apply split_breaks_no_linebreak. }
  eapply Forall_impl; [|exact H]. intros l Hl Hin.
  rewrite Forall_forall in Hl. specialize (Hl LF Hin). discriminate.
Qed.

Lemma interpret_hunk_new_block (hunk_text hunk_header : str) (old_start : Z)
    (expected new_block : list str) :
  interpret_hunk hunk_text = Hunk hunk_header old_start expected new_block ->
  Forall (fun l => ~ In LF l) new_block.
Proof.
  unfold interpret_hunk. destruct (_ || _); [discriminate|].
  destruct (match_header _); [|discriminate].
  unfold interpret_body. rewrite fold_classify_blocks. cbn [app].
  intros [= _ _ _ <-].
  pose proof (splitlines_no_newline (strip hunk_text)) as H.
  apply Forall_map. apply Forall_forall. intros l Hl.
  apply filter_In in Hl. destruct Hl as [Hl _].
  assert (Hin : In l (splitlines (strip hunk_text))).
  { destruct (splitlines (strip hunk_text)); [destruct Hl|right; exact Hl]. }
  rewrite Forall_forall in H. specialize (H l Hin).
  intros Hc. apply H. destruct l; [destruct Hc|right; exact Hc].
Qed.

Lemma Forall_firstn {A} (P : A -> Prop) (n : nat) (l : list A) :
  Forall P l -> Forall P (firstn n l).
Proof.
  intros H. apply Forall_forall. intros x Hx. rewrite Forall_forall in H.
  apply H. rewrite <- (firstn_skipn n l). apply in_or_app. left. exact Hx.
Qed.

Lemma Forall_skipn {A} (P : A -> Prop) (n : nat) (l : list A) :
  Forall P l -> Forall P (skipn n l).
Proof.
  intros H. apply Forall_forall. intros x Hx. rewrite Forall_forall in H.
  apply H. rewrite <- (firstn_skipn n l). apply in_or_app. right. exact Hx.
Qed.

Lemma apply_hunk_no_newline (patched_lines_raw : list str)
    (current_file_offset : Z) (hunk_text : str) (patched_lines_raw' : list str)
    (current_file_offset' : Z) :
  Forall (fun l => ~ In LF l) patched_lines_raw ->
  apply_hunk patched_lines_raw current_file_offset hunk_text
  = Continue patched_lines_raw' current_file_offset' ->
  Forall (fun l => ~ In LF l) patched_lines_raw'.
Proof.
  intros Hp. unfold apply_hunk.
  destruct (interpret_hunk hunk_text) as [|h|h o e n] eqn:Hint.
  - intros [= <- _]. exact Hp.
  - discriminate.
  - pose proof (interpret_hunk_new_block _ _ _ _ _ Hint) as Hn.
    unfold apply_blocks. destruct (is_empty e).
    + destruct (is_empty n).
      * intros [= <- _]. exact Hp.
      * intros [= <- _]. repeat (apply Forall_app; split);
          [apply Forall_firstn|exact Hn|apply Forall_skipn]; exact Hp.
    + destruct (found_of _); [|discriminate].
      intros [= <- _]. repeat (apply Forall_app; split);
        [apply Forall_firstn|exact Hn|apply Forall_skipn]; exact Hp.
Qed.

Lemma run_hunks_no_newline (diff_parts : list str) :
  forall patched_lines_raw current_file_offset patched_lines_raw'
         current_file_offset',
    Forall (fun l => ~ In LF l) patched_lines_raw ->
    run_hunks diff_parts patched_lines_raw current_file_offset
    = Continue patched_lines_raw' current_file_offset' ->
    Forall (fun l => ~ In LF l) patched_lines_raw'.
Proof.
  induction diff_parts as [|t parts IH]; intros p off p' off' Hp; simpl.
  - intros [= <- _]. exact Hp.
  - destruct (apply_hunk p off t) as [p1 off1|] eqn:Hstep; [|discriminate].
    apply IH. exact (apply_hunk_no_newline _ _ _ _ _ Hp Hstep).
Qed.

(** X10. What a run writes reads back as the lines it computed: the lines
    that the loop over the hunks produces from the lines of a target text
    never hold a newline, so the text written for them (the lines joined by
    newlines, with a final newline) is split by the program's own reading
    into exactly those lines. *)
Theorem written_text_reads_back_as_patched_lines
    (diff_parts : list str) (target_text : str) (start_offset : Z)
    (patched_lines_raw : list str) (current_file_offset : Z) :
  run_hunks diff_parts (lines_of target_text) start_offset
  = Continue patched_lines_raw current_file_offset ->
  Forall (fun l => ~ In LF l) patched_lines_raw
  /\ lines_of (render patched_lines_raw) = patched_lines_raw.
Proof.
  intros Hrun.
  assert (H : Forall (fun l => ~ In LF l) patched_lines_raw).
  { apply (run_hunks_no_newline _ _ _ _ _ (lines_of_no_newline target_text)
             Hrun). }
  split; [exact H|apply lines_of_render; exact H].
Qed.

Lemma written_text_reads_back_as_patched_lines_witness :
  lines_of (render six_lines_patched) = six_lines_patched.
Proof.
  apply (written_text_reads_back_as_patched_lines three_hunks
           (text_of ["a"; "b"; "c"; "d"; "e"; "f"]%string) 0
           six_lines_patched 4).
  vm_compute. reflexivity.
Defined.

Lemma readlines_nil (text : str) : readlines text = [] -> text = [].
Proof.
  destruct text as [|c text]; [reflexivity|]. simpl.
  destruct (N.eqb c LF); [discriminate|].
  destruct (readlines text); discriminate.
Qed.

Lemma rstrip_newline_cons (c : char) (l : str) :
  N.eqb c LF = false -> rstrip_newline (c :: l) = c :: rstrip_newline l.
Proof.
  intros Hc. unfold rstrip_newline. cbn [rstrip_by].
  rewrite N.eqb_sym, Hc. destruct (rstrip_by (N.eqb LF) l); reflexivity.
Qed.

Lemma with_final_newline_cons (c : char) (text : str) :
  text <> [] ->
  with_final_newline (c :: text) = c :: with_final_newline text.
Proof.
  intros Hne. destruct text as [|d text]; [congruence|].
  unfold with_final_newline.
  change (last (c :: d :: text) 0%N) with (last (d :: text) 0%N).
  destruct (N.eqb (last (d :: text) 0%N) LF); reflexivity.
Qed.

(** Writing the lines of a text gives the text back, with a final newline
    when it had none. *)
Lemma render_lines_of (text : str) :
  render (lines_of text) = with_final_newline text.
Proof.
  rewrite render_concat. unfold lines_of.
  induction text as [|c text IH]; [reflexivity|].
  cbn [readlines]. destruct (N.eqb c LF) eqn:E.
  - apply N.eqb_eq in E. subst c. cbn [map concat].
    change (rstrip_newline [LF]) with (@nil char). cbn [app]. rewrite IH.
    destruct text as [|d text]; [reflexivity|].
    rewrite (with_final_newline_cons LF (d :: text)) by discriminate.
    reflexivity.
  - destruct (readlines text) as [|l ls] eqn:Er.
    + apply readlines_nil in Er. subst text. cbn [map concat].
      rewrite rstrip_newline_cons by exact E. simpl.
      unfold with_final_newline. simpl. rewrite E. reflexivity.
    + cbn [map concat] in *. rewrite rstrip_newline_cons by exact E.
      cbn [app]. rewrite IH. rewrite with_final_newline_cons; [reflexivity|].
      intros ->. discriminate.
Qed.

Lemma run_hunks_neutral (diff_parts : list str) (patched_lines_raw : list str)
    (current_file_offset : Z) :
  Forall neutral diff_parts ->
  run_hunks diff_parts patched_lines_raw current_file_offset
  = Continue patched_lines_raw current_file_offset.
Proof.
  induction 1 as [|t parts Ht _ IH]; [reflexivity|]. simpl.
  unfold apply_hunk. destruct Ht as [-> | (h & o & ->)]; exact IH.
Qed.

(** X11. A diff that has hunks, but none that changes anything (parts that
    are not hunks, and hunks whose two blocks are empty), still rewrites the
    target: the run succeeds with one write, and the target then holds its
    former text with a final newline added when it was not empty and had
    none; it is the former text itself exactly when that text was empty or
    ended with a newline. *)
Theorem empty_hunks_still_rewrite_the_target
    (target_file_path diff_file_path : str) (w : world)
    (target_text diff_text : str) :
  fs w target_file_path = Content target_text ->
  fs w diff_file_path = Content diff_text ->
  is_new_file_diff (lines_of diff_text) = false ->
  no_hunk_parts (segment (join [LF] (lines_of diff_text))) = false ->
  Forall neutral (segment (join [LF] (lines_of diff_text))) ->
  write_error w = None ->
  returned (apply_fuzzy_patch target_file_path diff_file_path w) = true
  /\ trace (apply_fuzzy_patch target_file_path diff_file_path w)
     = [ReadDiff; ReadTarget; WriteTarget (with_final_newline target_text)]
  /\ fs_after (apply_fuzzy_patch target_file_path diff_file_path w)
       target_file_path
     = Content (with_final_newline target_text)
  /\ (with_final_newline target_text = target_text
      <-> target_text = [] \/ last target_text 0%N = LF).
Proof.
  intros Ht Hd Hnew Hparts Hneutral Hw.
  unfold apply_fuzzy_patch. rewrite Hd.
  destruct (readlines diff_text) as [|l0 ls0] eqn:Er.
  { exfalso. unfold lines_of in Hparts. rewrite Er in Hparts. discriminate. }
  cbn [is_empty]. rewrite <- Er. fold (lines_of diff_text).
  rewrite Hnew, Ht. fold (lines_of target_text).
  unfold patch_and_write. rewrite Hparts.
  rewrite (run_hunks_neutral _ _ _ Hneutral), Hw, render_lines_of.
  cbn [returned trace fs_after succeed app]. unfold write_file.
  rewrite str_eqb_refl. repeat split.
  - intros E. destruct target_text as [|c t]; [left; reflexivity|right].
    unfold with_final_newline in E.
    destruct (N.eqb (last (c :: t) 0%N) LF) eqn:El;
      [apply N.eqb_eq; exact El|].
    exfalso. apply (f_equal (@length char)) in E.
    rewrite length_app in E. simpl in E. lia.
  - intros [->|El]; [reflexivity|].
    destruct target_text as [|c t]; [reflexivity|].
    unfold with_final_newline. rewrite El, N.eqb_refl. reflexivity.
Qed.

Lemma empty_hunks_still_rewrite_the_target_witness :
  fs_after (apply_fuzzy_patch (lit "t") (lit "d")
              (two_files (Content (lit "a")) (Content bare_header_diff)))
    (lit "t")
  = Content (with_final_newline (lit "a")).
Proof.
  apply (empty_hunks_still_rewrite_the_target (lit "t") (lit "d")
           (two_files (Content (lit "a")) (Content bare_header_diff))
           (lit "a") bare_header_diff).
  - reflexivity.
  - reflexivity.
  - vm_compute. reflexivity.
  - vm_compute. reflexivity.
  - constructor; [left; vm_compute; reflexivity|].
    constructor; [|constructor].
    right. exists (lit "@@ -1 +1 @@"), 1%Z. vm_compute. reflexivity.
  - reflexivity.
Defined.

(** X12. A pure insertion never fails on its line number: the insertion
    point is brought back into the file.  Applied to no lines at all it
    gives exactly its new block, whatever the header and the offset say;
    with a hinted position at or past the end of the lines the block is
    appended; with a hinted position at or before the first line it is put
    in front. *)
Theorem pure_insertion_is_clamped
    (patched_lines_raw : list str) (current_file_offset : Z) (hunk_text : str)
    (hunk_header : str) (old_start : Z) (new_block : list str) :
  interpret_hunk hunk_text = Hunk hunk_header old_start [] new_block ->
  new_block <> [] ->
  apply_hunk [] current_file_offset hunk_text
  = Continue new_block (current_file_offset + Z.of_nat (length new_block))%Z
  /\ ((Z.of_nat (length patched_lines_raw)
       <= (if old_start =? 0 then 0 else old_start - 1)
          + current_file_offset)%Z ->
      apply_hunk patched_lines_raw current_file_offset hunk_text
      = Continue (patched_lines_raw ++ new_block)
          (current_file_offset + Z.of_nat (length new_block))%Z)
  /\ (((if old_start =? 0 then 0 else old_start - 1)
       + current_file_offset <= 0)%Z ->
      apply_hunk patched_lines_raw current_file_offset hunk_text
      = Continue (new_block ++ patched_lines_raw)
          (current_file_offset + Z.of_nat (length new_block))%Z).
Proof.
  intros Hint Hn. apply is_empty_false in Hn.
  assert (Hstep : forall p,
    apply_hunk p current_file_offset hunk_text
    = Continue
        (firstn (Z.to_nat (insertion_point old_start current_file_offset p)) p
         ++ new_block
         ++ skipn (Z.to_nat (insertion_point old_start current_file_offset p))
              p)
        (current_file_offset + Z.of_nat (length new_block))%Z).
  { intros p. unfold apply_hunk. rewrite Hint. unfold apply_blocks.
    simpl is_empty. rewrite Hn. reflexivity. }
  split; [|split].
  - rewrite Hstep, firstn_nil, skipn_nil, app_nil_r. reflexivity.
  - intros Hend. rewrite Hstep.
    replace (Z.to_nat (insertion_point old_start current_file_offset
                         patched_lines_raw))
      with (length patched_lines_raw)
      by (unfold insertion_point; destruct (old_start =? 0)%Z; lia).
    rewrite firstn_all, skipn_all, app_nil_r. reflexivity.
  - intros Hfront. rewrite Hstep.
    replace (Z.to_nat (insertion_point old_start current_file_offset
                         patched_lines_raw))
      with 0
      by (unfold insertion_point; destruct (old_start =? 0)%Z; lia).
    reflexivity.
Qed.

Lemma pure_insertion_is_clamped_witness :
  apply_hunk [] 7 (hunk_text_of ["@@ -90,0 +91,2 @@"; "+x"; "+y"]%string)
  = Continue (map lit ["x"; "y"]%string) (7 + Z.of_nat 2)%Z.
Proof.
  refine (proj1 (pure_insertion_is_clamped [] 7
                   (hunk_text_of ["@@ -90,0 +91,2 @@"; "+x"; "+y"]%string)
                   (lit "@@ -90,0 +91,2 @@") 90 (map lit ["x"; "y"]%string)
                   _ _)).
  - vm_compute. reflexivity.
  - discriminate.
Defined.

Lemma diagnostics_nonempty (target_file_path diff_file_path : str) (e : error) :
  diagnostics target_file_path diff_file_path e <> [].
Proof. destruct e; discriminate. Qed.

(** A run is silent exactly when it succeeds, and a failed run leaves the
    files as they were when the final write is not what failed. *)
Lemma patch_and_write_outcome (target_file_path diff_file_path : str)
    (w : world) (tr : list event) (diff_content_for_split : str)
    (target_lines_raw : list str) :
  writes tr = [] ->
  (returned (patch_and_write target_file_path diff_file_path w tr
               diff_content_for_split target_lines_raw) = true
   /\ stderr (patch_and_write target_file_path diff_file_path w tr
                diff_content_for_split target_lines_raw) = [])
  \/ (returned (patch_and_write target_file_path diff_file_path w tr
                  diff_content_for_split target_lines_raw) = false
      /\ stderr (patch_and_write target_file_path diff_file_path w tr
                   diff_content_for_split target_lines_raw) <> []
      /\ (write_error w = None ->
          fs_after (patch_and_write target_file_path diff_file_path w tr
                      diff_content_for_split target_lines_raw) = fs w
          /\ writes (trace (patch_and_write target_file_path diff_file_path
                              w tr diff_content_for_split target_lines_raw))
             = [])).
Proof.
  intros Htr. unfold patch_and_write.
  destruct (no_hunk_parts _); [left; split; reflexivity|].
  destruct (run_hunks _ target_lines_raw 0) as [patched off|e].
  - destruct (write_error w) as [[e st]|]; [right|left; split; reflexivity].
    split; [reflexivity|]. split; [apply diagnostics_nonempty|discriminate].
  - right. split; [reflexivity|]. split; [apply diagnostics_nonempty|].
    intros _. split; [reflexivity|exact Htr].
Qed.

Lemma apply_fuzzy_patch_outcome (target_file_path diff_file_path : str)
    (w : world) :
  (returned (apply_fuzzy_patch target_file_path diff_file_path w) = true
   /\ stderr (apply_fuzzy_patch target_file_path diff_file_path w) = [])
  \/ (returned (apply_fuzzy_patch target_file_path diff_file_path w) = false
      /\ stderr (apply_fuzzy_patch target_file_path diff_file_path w) <> []
      /\ (write_error w = None ->
          fs_after (apply_fuzzy_patch target_file_path diff_file_path w) = fs w
          /\ writes (trace (apply_fuzzy_patch target_file_path diff_file_path
                              w)) = [])).
Proof.
  unfold apply_fuzzy_patch.
  destruct (fs w diff_file_path) as [|e|diff_text];
    try (right; split; [reflexivity|];
         split; [apply diagnostics_nonempty|intros _; split; reflexivity]).
  destruct (is_empty (readlines diff_text)); [left; split; reflexivity|].
  destruct (is_new_file_diff _);
    [apply patch_and_write_outcome; reflexivity|].
  destruct (fs w target_file_path) as [|e|target_text];
    try (right; split; [reflexivity|];
         split; [apply diagnostics_nonempty|intros _; split; reflexivity]).
  apply patch_and_write_outcome. reflexivity.
Qed.

(** X13. The command exits with status 0 or 1, and it is silent exactly
    when it succeeds: status 0 comes with nothing on the error channel,
    status 1 with a diagnostic.  With an argument count other than two (three
    entries in argv) it prints the usage line and touches no file.  When the
    final write is not what fails (the environment lets it through), status
    1 means that nothing was written and the files are as they were. *)
Theorem command_is_silent_exactly_on_success (argv : list str) (w : world) :
  (exit_status (main argv w) = 0 \/ exit_status (main argv w) = 1)%Z
  /\ (exit_status (main argv w) = 0%Z <-> process_stderr (main argv w) = [])
  /\ (length argv <> 3 ->
      exit_status (main argv w) = 1%Z
      /\ process_stderr (main argv w) = [usage]
      /\ process_trace (main argv w) = []
      /\ process_fs (main argv w) = fs w)
  /\ (exit_status (main argv w) = 1%Z -> write_error w = None ->
      process_fs (main argv w) = fs w
      /\ writes (process_trace (main argv w)) = []).
Proof.
  unfold main. destruct (length argv =? 3) eqn:Hargc; cbn [negb].
  - apply Nat.eqb_eq in Hargc.
    destruct (apply_fuzzy_patch_outcome (nth 1 argv []) (nth 2 argv []) w)
      as [[Hr Hs]|(Hr & Hs & Hkeep)];
      cbn [exit_status process_stderr process_trace process_fs];
      rewrite Hr.
    + repeat split; auto; try discriminate; try lia.
    + repeat split; auto; try discriminate; try lia; try congruence;
        intros; apply Hkeep; assumption.
  - apply Nat.eqb_neq in Hargc.
    cbn [exit_status process_stderr process_trace process_fs].
    repeat split; auto; try discriminate.
Qed.

(* ================================================================== *)
(** * Further properties of the segmenter and of the loop *)
(* ================================================================== *)

Lemma startswith_app_true (p a b : str) :
  startswith p a = true -> startswith p (a ++ b) = true.
Proof.
  revert a. induction p as [|c p IH]; intros a H; [reflexivity|].
  destruct a as [|d a]; [discriminate|]. simpl in *.
  apply andb_true_iff in H. destruct H as [H1 H2].
  rewrite H1. apply IH. exact H2.
Qed.

(** The split loses no text; the part under construction has no hunk marker
    at the beginning of a line, and every part after it begins with the
    marker and has no other at the beginning of a line. *)
Lemma re_split_aux_spec (s : str) :
  forall bol,
    fst (re_split_aux bol s) ++ concat (snd (re_split_aux bol s)) = s
    /\ has_hunk_marker bol (fst (re_split_aux bol s)) = false
    /\ Forall (fun part => startswith (lit "@@") part = true
                           /\ has_hunk_marker false part = false)
         (snd (re_split_aux bol s)).
Proof.
  induction s as [|c s IH]; intros bol.
  - simpl. repeat split. constructor.
  - cbn [re_split_aux].
    destruct (IH (N.eqb c LF)) as (Hcat & Hm & Hall).
    destruct (re_split_aux (N.eqb c LF) s) as [piece rest] eqn:Es.
    cbn [fst snd] in Hcat, Hm, Hall.
    destruct (bol && startswith (lit "@@") (c :: s)) eqn:Hsplit.
    + cbn [fst snd concat app]. split; [|split].
      * rewrite Hcat. reflexivity.
      * reflexivity.
      * constructor; [|exact Hall]. split.
        -- apply andb_true_iff in Hsplit. destruct Hsplit as [_ Hs].
           change (lit "@@") with [64%N; 64%N] in *.
           destruct s as [|d s']; [simpl in Hs; rewrite andb_false_r in Hs;
                                   discriminate|].
           cbn [startswith] in Hs. apply andb_true_iff in Hs.
           destruct Hs as [Hc Hd]. apply andb_true_iff in Hd.
           destruct Hd as [Hd _].
           apply N.eqb_eq in Hc. subst c.
           change (N.eqb 64 LF) with false in Es. cbn [re_split_aux] in Es.
           destruct (re_split_aux (N.eqb d LF) s') as [p r].
           cbn [andb] in Es. injection Es as <- _.
           cbn [startswith]. rewrite N.eqb_refl, Hd. reflexivity.
        -- cbn [has_hunk_marker andb orb]. exact Hm.
    + cbn [fst snd app]. split; [|split].
      * rewrite Hcat. reflexivity.
      * cbn [has_hunk_marker]. rewrite Hm, orb_false_r.
        destruct bol; [|reflexivity]. cbn [andb] in *.
        destruct (startswith (lit "@@") (c :: piece)) eqn:Hp; [|reflexivity].
        apply (startswith_app_true _ _ (concat rest)) in Hp.
        cbn [app] in Hp. rewrite Hcat in Hp. congruence.
      * exact Hall.
Qed.

(** X14. The segmenter loses no text but a leading header: the parts, in
    order, make up the diff text after a header that has no line beginning
    with the hunk marker and is dropped only when it is not blank.  Every
    part holds at most one hunk, since no line after its first begins with
    the marker, and every part begins with the marker unless it is a blank
    first part, which the loop skips. *)
Theorem segmenter_loses_only_the_header (diff_content_for_split : str) :
  exists header,
    diff_content_for_split = header ++ concat (segment diff_content_for_split)
    /\ (header = []
        \/ (strip header <> [] /\ has_hunk_marker true header = false))
    /\ Forall (fun part =>
                 has_hunk_marker false part = false
                 /\ (startswith (lit "@@") part = true \/ strip part = []))
         (segment diff_content_for_split).
Proof.
  destruct (re_split_aux_spec diff_content_for_split true) as (Hcat & Hm & Hall).
  unfold segment, re_split_hunks.
  destruct (re_split_aux true diff_content_for_split) as [piece rest].
  cbn [fst snd] in Hcat, Hm, Hall. cbn [nth is_empty negb andb tl].
  assert (Hrest : Forall (fun part =>
                    has_hunk_marker false part = false
                    /\ (startswith (lit "@@") part = true \/ strip part = []))
                    rest).
  { eapply Forall_impl; [|exact Hall]. intros p [H1 H2]. auto. }
  pose proof Hm as Hm'. rewrite has_hunk_marker_first in Hm'.
  apply orb_false_iff in Hm'. destruct Hm' as [Hs Hf].
  destruct (negb (is_empty piece) && negb (startswith (lit "@@") piece)
            && negb (is_empty (strip piece))) eqn:Hpop.
  - exists piece. split; [symmetry; exact Hcat|]. split; [|exact Hrest].
    right. apply andb_true_iff in Hpop. destruct Hpop as [_ Hstrip].
    apply negb_true_iff, is_empty_false in Hstrip. split; assumption.
  - exists []. split; [symmetry; exact Hcat|]. split; [left; reflexivity|].
    constructor; [|exact Hrest]. split; [exact Hf|]. right.
    rewrite Hs in Hpop. cbn [negb] in Hpop. rewrite andb_true_r in Hpop.
    apply andb_false_iff in Hpop. destruct Hpop as [H|H].
    + apply negb_false_iff, is_empty_true in H. subst piece. reflexivity.
    + apply negb_false_iff, is_empty_true in H. exact H.
Qed.

Lemma contains_tail (c : char) (sub s : str) :
  contains (c :: sub) s = true -> contains sub s = true.
Proof.
  induction s as [|d s IH]; cbn [contains].
  - rewrite orb_false_r. discriminate.
  - intros H. apply orb_true_iff in H. destruct H as [H|H].
    + apply orb_true_iff. right.
      cbn [startswith] in H. apply andb_true_iff in H. destruct H as [_ H].
      destruct s as [|e s']; cbn [contains]; rewrite H; reflexivity.
    + apply orb_true_iff. right. apply IH. exact H.
Qed.

(** X16. The second test of the creation marker never decides: a line that
    contains "a/dev/null" contains "/dev/null", so a diff is in creation mode
    exactly when its first line starts with "---" and contains
    "/dev/null". *)
Theorem creation_mode_test_reduces_to_dev_null (diff_lines_raw : list str) :
  is_new_file_diff diff_lines_raw
  = startswith (lit "---") (nth 0 diff_lines_raw [])
    && contains (lit "/dev/null") (nth 0 diff_lines_raw []).
Proof.
  unfold is_new_file_diff. f_equal.
  destruct (contains (lit "/dev/null") (nth 0 diff_lines_raw [])) eqn:E;
    [reflexivity|].
  destruct (contains (lit "a/dev/null") (nth 0 diff_lines_raw [])) eqn:E';
    [|reflexivity].
  change (lit "a/dev/null") with (97%N :: lit "/dev/null") in E'.
  apply contains_tail in E'. congruence.
Qed.

Lemma hint_never_decides_whether_a_hunk_applies_witness :
  found_of (find_flexible_match retry_target retry_hunk 0) = true.
Proof.
  refine (proj1 (hint_never_decides_whether_a_hunk_applies retry_target
                   retry_hunk 1 0) 2 0 _ _).
  - lia.
  - vm_compute. reflexivity.
Defined.

Lemma command_is_silent_exactly_on_success_witness :
  exit_status (main [lit "fuzzy_patch.py"] (two_files NotFound NotFound)) = 1%Z
  /\ process_stderr (main [lit "fuzzy_patch.py"] (two_files NotFound NotFound))
     = [usage]
  /\ process_trace (main [lit "fuzzy_patch.py"] (two_files NotFound NotFound))
     = []
  /\ process_fs (main [lit "fuzzy_patch.py"] (two_files NotFound NotFound))
     = fs (two_files NotFound NotFound).
Proof.
  refine (proj1 (proj2 (proj2 (command_is_silent_exactly_on_success
                                 [lit "fuzzy_patch.py"]
                                 (two_files NotFound NotFound)))) _).
  simpl. lia.
Defined.
